(** * aoclib.parsing: a shallow embedding of the parser combinators

    The development follows [src/aoclib/parsing.py].  A Python [Parser]
    object is a value of the inductive type [Parser]; the closures the
    library stores in [_parse_fn] are the constructors of [ParseFn], and
    calling one is [call_parse_fn].  [Parser.run] is the function [run],
    which spends one unit of fuel per call of [run] and per iteration of
    the [while] loop of [star]; running out of fuel stands for a
    computation that does not return.  The only mutable field of the
    library, [ParserRef._ref], lives in an explicit [store]. *)

From stdpp Require Import gmap list.
From Stdlib Require Import ZArith String Ascii Lia.

Set Warnings "-register-all".

Local Open Scope string_scope.
Local Open Scope list_scope.
Local Open Scope nat_scope.

(** ** Python values *)

(** Results of parsers are dynamically typed.  [VSkip] is the private
    sentinel object [Parser.__SKIP]; [VTagged] is the named tuple
    [_Tagged]. *)
Inductive value : Type :=
| VNone
| VSkip
| VInt (z : Z)
| VStr (s : string)
| VTuple (vs : list value)
| VList (vs : list value)
| VDict (kvs : list (string * value))
| VTagged (tag result : value).

Inductive exn : Type :=
| TypeError (msg : string)
| AttributeError (msg : string)
| OtherError (msg : string).

(** Outcome of a Python call: it returns, it raises, or (fuel exhausted)
    it is still running. *)
Inductive Res (A : Type) : Type :=
| Ret (a : A)
| Raise (e : exn)
| OutOfFuel.
Arguments Ret {A} a.
Arguments Raise {A} e.
Arguments OutOfFuel {A}.

Definition bind {A B} (m : Res A) (k : A -> Res B) : Res B :=
  match m with
  | Ret a => k a
  | Raise e => Raise e
  | OutOfFuel => OutOfFuel
  end.

Notation "'do' x <- m ; k" := (bind m (fun x => k))
  (at level 10, x name, m at level 100, k at level 200).

(** [x is None] and [x is self.__SKIP]. *)
Definition is_None (v : value) : bool :=
  match v with VNone => true | _ => false end.

Definition is_SKIP (v : value) : bool :=
  match v with VSkip => true | _ => false end.

(** Python's [==] on the values above: structural, except that a
    [_Tagged] is a tuple of its two fields and that dictionaries compare
    without regard to order. *)
Fixpoint py_eq (a b : value) {struct a} : bool :=
  match a, b with
  | VNone, VNone => true
  | VSkip, VSkip => true
  | VInt x, VInt y => Z.eqb x y
  | VStr x, VStr y => String.eqb x y
  | VList xs, VList ys =>
      (fix go (xs ys : list value) : bool :=
         match xs, ys with
         | [], [] => true
         | x :: xs', y :: ys' => py_eq x y && go xs' ys'
         | _, _ => false
         end) xs ys
  | VTuple xs, VTuple ys =>
      (fix go (xs ys : list value) : bool :=
         match xs, ys with
         | [], [] => true
         | x :: xs', y :: ys' => py_eq x y && go xs' ys'
         | _, _ => false
         end) xs ys
  | VTagged t r, VTagged t' r' => py_eq t t' && py_eq r r'
  | VTagged t r, VTuple [t'; r'] => py_eq t t' && py_eq r r'
  | VTuple [t; r], VTagged t' r' => py_eq t t' && py_eq r r'
  | VDict d1, VDict d2 =>
      Nat.eqb (List.length d1) (List.length d2) &&
      (fix all (d : list (string * value)) : bool :=
         match d with
         | [] => true
         | (k, v) :: d' =>
             (fix find (e : list (string * value)) : bool :=
                match e with
                | [] => false
                | (k', v') :: e' =>
                    if String.eqb k k' then py_eq v v' else find e'
                end) d2 && all d'
         end) d1
  | _, _ => false
  end.

(** ** Strings and positions *)

(** Input strings are sequences of characters among the first 256 code
    points.  Positions are indices into the input, counted from 0. *)

Fixpoint drop_str (n : nat) (s : string) : string :=
  match n, s with
  | 0, _ => s
  | S n', String _ s' => drop_str n' s'
  | S _, EmptyString => EmptyString
  end.

Fixpoint take_str (n : nat) (s : string) : string :=
  match n, s with
  | 0, _ => EmptyString
  | S n', String c s' => String c (take_str n' s')
  | S _, EmptyString => EmptyString
  end.

(** [s[i:j]] for [0 <= i], [0 <= j]. *)
Definition slice (s : string) (i j : nat) : string :=
  take_str (j - i) (drop_str i s).

(** [s.startswith(z, i)]: false when [i] lies beyond the end of [s]. *)
Definition startswith (s z : string) (i : nat) : bool :=
  if String.length s <? i then false else String.prefix z (drop_str i s).

(** The characters matched by [\s] among the first 256 code points. *)
Definition is_space (c : ascii) : bool :=
  let n := nat_of_ascii c in
  ((9 <=? n) && (n <=? 13)) || ((28 <=? n) && (n <=? 32))
  || Nat.eqb n 133 || Nat.eqb n 160.

(** [__WS_PATT.match(s, i).end()] for [__WS_PATT = re.compile(r"\s*")]:
    the end of the run of whitespace that starts at [i]; a start beyond
    the end of [s] is clamped to it. *)
Fixpoint ws_end_from (s : string) (skip pos : nat) : nat :=
  match s with
  | EmptyString => pos
  | String c s' =>
      match skip with
      | S k => ws_end_from s' k (S pos)
      | 0 => if is_space c then ws_end_from s' 0 (S pos) else pos
      end
  end.

Definition ws_end (s : string) (i : nat) : nat := ws_end_from s i 0.

(** ** Compiled regular expressions

    [re] is Python's standard library.  A compiled pattern is taken by
    what [regex] uses of it: [patt.match(s, i)] and, of the match object,
    [end()], [group(0)], [groups()] and [groupdict()].  A group that did
    not take part in the match is [None]. *)
Record Match : Type := mkMatch {
  m_end : nat;
  m_group0 : string;
  m_groups : list (option string);
  m_groupdict : list (string * option string)
}.

Record Pattern : Type := mkPattern {
  p_match : string -> nat -> option Match
}.

Definition of_group (g : option string) : value :=
  match g with Some t => VStr t | None => VNone end.

(** ** Parsers *)

Definition loc := nat.

(** A conversion function attached with [conv]. *)
Definition Conv : Type := value -> Res value.

(** What a parse function or [run] returns: [None], or a pair
    [(result, end)]. *)
Definition parse_ret : Type := option (value * nat).

(** A value of [Parser] is an instance of class [Parser] or of one of
    its subclasses.  The subclasses call [Parser.__init__] with the
    parse function only, so their instances hold the default pipeline
    (no conversion, no trimming, no tag) and their parse function is
    determined by their own slot. *)
Inductive Parser : Type :=
| PlainParser (parse_fn : ParseFn) (conversions : list Conv)
              (trim : bool) (tag : value)
| ChainObj (parsers : list Parser)
| FirstMatchObj (parsers : list Parser)
| RefObj (r : loc)
with ParseFn : Type :=
| FnUser (f : string -> nat -> Res parse_ret)
| FnEx (z : string)
| FnRegex (patt : Pattern)
| FnChomp (n : nat)
| FnStar (p : Parser) (at_least : nat) (at_most : option nat)
| FnContextual (context_parser : Parser) (recipe_fn : value -> Res Parser)
| FnChainDoParse (parsers : list Parser)
| FnFirstMatchDoParse (parsers : list Parser)
| FnRunRef (r : loc).

Definition _parse_fn (p : Parser) : ParseFn :=
  match p with
  | PlainParser f _ _ _ => f
  | ChainObj ps => FnChainDoParse ps
  | FirstMatchObj ps => FnFirstMatchDoParse ps
  | RefObj r => FnRunRef r
  end.

Definition _conversions (p : Parser) : list Conv :=
  match p with
  | PlainParser _ cs _ _ => cs
  | _ => []
  end.

Definition _trim_ws (p : Parser) : bool :=
  match p with
  | PlainParser _ _ t _ => t
  | _ => false
  end.

Definition _tag (p : Parser) : value :=
  match p with
  | PlainParser _ _ _ t => t
  | _ => VNone
  end.

(** ** Construction: [Parser.__init__] and the pipeline operations *)

(** Keyword arguments ["conversions"], ["trim_ws"] and ["tag"]; [None]
    is an absent key. *)
Record kwargs : Type := mkKwargs {
  kw_conversions : option (list Conv);
  kw_trim_ws : option bool;
  kw_tag : option value
}.

Definition no_kwargs : kwargs := mkKwargs None None None.

(** [Parser(parse_fn, **kwargs)]. *)
Definition Parser_init (parse_fn : ParseFn) (kw : kwargs) : Parser :=
  PlainParser parse_fn
    (default [] (kw_conversions kw))
    (default false (kw_trim_ws kw))
    (default VNone (kw_tag kw)).

Definition _copy_with (self : Parser) (kw : kwargs) : Parser :=
  let convs :=
    match _conversions self with
    | [] => kw_conversions kw
    | cs => Some (cs ++ default [] (kw_conversions kw))
    end in
  let trim := Some (default (_trim_ws self) (kw_trim_ws kw)) in
  let tg := Some (default (_tag self) (kw_tag kw)) in
  Parser_init (_parse_fn self) (mkKwargs convs trim tg).

Definition conv (self : Parser) (fns : list Conv) : Parser :=
  match fns with
  | [] => self
  | _ => _copy_with self (mkKwargs (Some fns) None None)
  end.

(** The loop of [elem_converter] over a list: the i-th function is
    applied to the i-th element, [None] slots and elements beyond the
    functions are left alone. *)
Fixpoint zip_apply (fns : list (option Conv)) (result : list value)
  : Res (list value) :=
  match fns, result with
  | _, [] => Ret []
  | [], _ => Ret result
  | fn :: fns', x :: xs =>
      do x' <- match fn with Some f => f x | None => Ret x end;
      do xs' <- zip_apply fns' xs;
      Ret (x' :: xs')
  end.

Definition elem_converter (fns : list (option Conv)) : Conv :=
  fun result =>
    match result with
    | VTuple vs => do vs' <- zip_apply fns vs; Ret (VTuple vs')
    | VTagged t r => do vs' <- zip_apply fns [t; r]; Ret (VTuple vs')
    | VList vs => do vs' <- zip_apply fns vs; Ret (VList vs')
    | _ => Raise (TypeError "zipconv only works for lists and tuples")
    end.

Definition zipconv (self : Parser) (fns : list (option Conv)) : Parser :=
  if forallb (fun fn => match fn with None => true | Some _ => false end) fns
  then self
  else _copy_with self (mkKwargs (Some [elem_converter fns]) None None).

Definition const (self : Parser) (val : value) : Parser :=
  _copy_with self (mkKwargs (Some [fun _ => Ret val]) None None).

Definition skip (self : Parser) : Parser :=
  _copy_with self (mkKwargs (Some [fun _ => Ret VSkip]) None (Some VNone)).

Definition trim_ws (self : Parser) (enable : bool) : Parser :=
  if Bool.eqb (_trim_ws self) enable then self
  else _copy_with self (mkKwargs None (Some enable) None).

Definition tag (self : Parser) (t : value) : Parser :=
  if py_eq (_tag self) t then self
  else _copy_with self (mkKwargs None None (Some t)).

(** ** Composite parsers *)

(** [_ParserList.__init__]: the children that are instances of the
    class under construction contribute their own children. *)
Definition flatten_chain (parsers : list Parser) : list Parser :=
  flat_map (fun p => match p with ChainObj ps => ps | _ => [p] end) parsers.

Definition flatten_first (parsers : list Parser) : list Parser :=
  flat_map (fun p => match p with FirstMatchObj ps => ps | _ => [p] end)
           parsers.

Definition _ParserChain (parsers : list Parser) : Parser :=
  ChainObj (flatten_chain parsers).

Definition _ParserFirstMatch (parsers : list Parser) : Parser :=
  FirstMatchObj (flatten_first parsers).

(** [self + other] and [self | other]. *)
Definition __add__ (self other : Parser) : Parser :=
  _ParserChain [self; other].

Definition __or__ (self other : Parser) : Parser :=
  _ParserFirstMatch [self; other].

(** ** Atomic parsers and the other constructors

    [ex], [regex] and [chomp] are wrapped in [functools.cache], which
    hands out the same object for equal arguments and does not change
    what the object does. *)

Definition ex (z : string) : Parser :=
  Parser_init (FnEx z) (mkKwargs None (Some true) None).

(** [regex] compiles its argument with [re.compile]; the compiler is a
    parameter. *)
Definition regex (re_compile : string -> Pattern) (z : string) : Parser :=
  Parser_init (FnRegex (re_compile z)) (mkKwargs None (Some true) None).

(** [chomp(n)] for a number of characters [n >= 0].  The source does
    not check its argument; a negative [n], with which it returns
    positions before the start, is outside this model, whose positions
    are naturals. *)
Definition chomp (n : nat) : Parser :=
  Parser_init (FnChomp n) no_kwargs.

(** [star(p, at_least, at_most)] for bounds [>= 0]; [at_most = None] is
    the default, no upper bound.  In the source a negative bound acts as
    0, the count of repetitions being never negative. *)
Definition star (p : Parser) (at_least : nat) (at_most : option nat)
  : Parser :=
  Parser_init (FnStar p at_least at_most) no_kwargs.

(** The separator of [seplist] is a parser or a string (any other type
    raises [TypeError] in the source and is excluded here by typing); a
    string [z] stands for [ex(z)]. *)
Definition sep_parser (sep : Parser + string) : Parser :=
  match sep with inl q => q | inr z => ex z end.

Definition seplist (p : Parser) (sep : Parser + string) : Parser :=
  let sep := sep_parser sep in
  __add__ p (star (__add__ (skip sep) p) 0 None).

Definition contextual (context_parser : Parser)
    (recipe_fn : value -> Res Parser) : Parser :=
  Parser_init (FnContextual context_parser recipe_fn) no_kwargs.

(** ** Running a parser *)

(** [_add_result(acc, sub_result)]; the accumulator is returned. *)
Definition _add_result (acc : list value) (sub_result : value)
  : list value :=
  match sub_result with
  | VList l => acc ++ List.filter (fun z => negb (is_None z)) l
  | VNone => acc
  | v => acc ++ [v]
  end.

(** The loop of [Parser.run] over [self._conversions]: [None] when a
    conversion returned [None], otherwise the converted result. *)
Fixpoint run_conversions (fns : list Conv) (result : value)
  : Res (option value) :=
  match fns with
  | [] => Ret (Some result)
  | fn :: fns' =>
      do result' <- fn result;
      if is_SKIP result' then run_conversions fns' VNone
      else if is_None result' then Ret None
      else run_conversions fns' result'
  end.

(** The parse function of [ex(z)]. *)
Definition ex_parse_fn (z s : string) (i : nat) : Res parse_ret :=
  if negb (startswith s z i) then Ret None
  else Ret (Some (VNone, i + String.length z)).

(** The parse function of [regex(z)], for the compiled pattern. *)
Definition regex_parse_fn (patt : Pattern) (s : string) (i : nat)
  : Res parse_ret :=
  match p_match patt s i with
  | None => Ret None
  | Some m =>
      match m_groupdict m with
      | _ :: _ =>
          Ret (Some (VDict (map (fun kv => (fst kv, of_group (snd kv)))
                                (m_groupdict m)), m_end m))
      | [] =>
          if 1 <? List.length (m_groups m)
          then Ret (Some (VTuple (map of_group (m_groups m)), m_end m))
          else if List.length (m_groups m) =? 1
          then Ret (Some (of_group (nth 0 (m_groups m) None), m_end m))
          else Ret (Some (VStr (m_group0 m), m_end m))
      end
  end.

(** The parse function of [chomp(n)]. *)
Definition chomp_parse_fn (n : nat) (s : string) (i : nat) : Res parse_ret :=
  if negb (i + n <=? String.length s) then Ret None
  else Ret (Some (VStr (slice s i (i + n)), i + n)).

Section ParseFunctions.

(** [p.run], as called from inside a parse function. *)
Variable run_rec : Parser -> string -> nat -> Res parse_ret.

(** [_ParserChain.do_parse], with its accumulator [results]. *)
Fixpoint chain_loop (parsers : list Parser) (results : list value)
    (s : string) (i : nat) : Res parse_ret :=
  match parsers with
  | [] => Ret (Some (VList results, i))
  | p :: parsers' =>
      do parse_ret <- run_rec p s i;
      match parse_ret with
      | None => Ret None
      | Some (nxt_result, nxt_i) =>
          chain_loop parsers' (_add_result results nxt_result) s nxt_i
      end
  end.

Definition chain_do_parse (parsers : list Parser) (s : string) (i : nat)
  : Res parse_ret :=
  chain_loop parsers [] s i.

(** [_ParserFirstMatch.do_parse]. *)
Fixpoint first_do_parse (parsers : list Parser) (s : string) (i : nat)
  : Res parse_ret :=
  match parsers with
  | [] => Ret None
  | p :: parsers' =>
      do parse_ret <- run_rec p s i;
      match parse_ret with
      | Some r => Ret (Some r)
      | None => first_do_parse parsers' s i
      end
  end.

(** The [while] loop of [star]; it returns [rep_count], [results] and
    [i] as they are when the loop is left.  Each test of the loop
    condition takes one unit of [fuel]. *)
Fixpoint star_loop (fuel : nat) (p : Parser) (at_most : option nat)
    (s : string) (rep_count : nat) (results : list value) (i : nat)
  : Res (nat * list value * nat) :=
  match fuel with
  | 0 => OutOfFuel
  | S fuel' =>
      if match at_most with None => true | Some m => rep_count <? m end
      then
        do parse_ret <- run_rec p s i;
        match parse_ret with
        | None => Ret (rep_count, results, i)
        | Some (nxt_result, nxt_i) =>
            star_loop fuel' p at_most s (S rep_count)
                      (_add_result results nxt_result) nxt_i
        end
      else Ret (rep_count, results, i)
  end.

(** The parse function of [star(p, at_least, at_most)]. *)
Definition star_parse_fn (fuel : nat) (p : Parser) (at_least : nat)
    (at_most : option nat) (s : string) (i : nat) : Res parse_ret :=
  do out <- star_loop fuel p at_most s 0 [] i;
  match out with
  | (rep_count, results, i') =>
      if rep_count <? at_least then Ret None
      else Ret (Some (VList results, i'))
  end.

(** The parse function of [contextual(context_parser, recipe_fn)]. *)
Definition contextual_parse_fn (context_parser : Parser)
    (recipe_fn : value -> Res Parser) (s : string) (i : nat)
  : Res parse_ret :=
  do context_ret <- run_rec context_parser s i;
  match context_ret with
  | None => Ret None
  | Some (context, ni) =>
      do q <- recipe_fn context;
      run_rec q s ni
  end.

(** [ParserRef.run_ref]: reading an unset slot raises
    [AttributeError]. *)
Definition run_ref (st : gmap loc Parser) (r : loc) (s : string) (i : nat)
  : Res parse_ret :=
  match st !! r with
  | None => Raise (AttributeError "_ref")
  | Some target => run_rec target s i
  end.

(** [self._parse_fn(s, i)]. *)
Definition call_parse_fn (fuel : nat) (st : gmap loc Parser) (f : ParseFn)
    (s : string) (i : nat) : Res parse_ret :=
  match f with
  | FnUser f => f s i
  | FnEx z => ex_parse_fn z s i
  | FnRegex patt => regex_parse_fn patt s i
  | FnChomp n => chomp_parse_fn n s i
  | FnStar p at_least at_most => star_parse_fn fuel p at_least at_most s i
  | FnContextual c recipe_fn => contextual_parse_fn c recipe_fn s i
  | FnChainDoParse ps => chain_do_parse ps s i
  | FnFirstMatchDoParse ps => first_do_parse ps s i
  | FnRunRef r => run_ref st r s i
  end.

(** The body of [Parser.run]. *)
Definition run_body (fuel : nat) (st : gmap loc Parser) (self : Parser)
    (s : string) (i : nat) : Res parse_ret :=
  let i := if _trim_ws self then ws_end s i else i in
  do parse_ret <- call_parse_fn fuel st (_parse_fn self) s i;
  match parse_ret with
  | None => Ret None
  | Some (result, new_i) =>
      do converted <- run_conversions (_conversions self) result;
      match converted with
      | None => Ret None
      | Some result =>
          let result :=
            if negb (is_None (_tag self)) then VTagged (_tag self) result
            else result in
          let new_i := if _trim_ws self then ws_end s new_i else new_i in
          Ret (Some (result, new_i))
      end
  end.

End ParseFunctions.

(** [self.run(s, i)] with the placeholders bound as in [st]. *)
Fixpoint run (fuel : nat) (st : gmap loc Parser) (self : Parser)
    (s : string) (i : nat) : Res parse_ret :=
  match fuel with
  | 0 => OutOfFuel
  | S fuel' => run_body (run fuel' st) fuel' st self s i
  end.

(** [self.parse(s)]; [None] is the value [VNone]. *)
Definition parse (fuel : nat) (st : gmap loc Parser) (self : Parser)
    (s : string) : Res value :=
  do parse_ret <- run fuel st self s 0;
  match parse_ret with
  | None => Ret VNone
  | Some (result, end_) =>
      if negb (end_ =? String.length s) then Ret VNone else Ret result
  end.

(** ** Forward references: [recursive] *)

(** The [_ref] slots of the [ParserRef] objects created so far, and the
    identity of the next one.  A slot that was never assigned has no
    entry. *)
Record RefState : Type := mkRefState {
  next_ref : loc;
  refs : gmap loc Parser
}.

(** [ParserRef()]. *)
Definition ParserRef_new (h : RefState) : loc * RefState :=
  (next_ref h, mkRefState (S (next_ref h)) (refs h)).

(** [self.set_ref(p)]: the assignment [self._ref = p]. *)
Definition set_ref (st : gmap loc Parser) (self : loc) (p : Parser)
  : Res (gmap loc Parser) :=
  Ret (<[self := p]> st).

(** [recursive(recipe_fn)] with [arity == 1].  The recipe is the
    caller's code: it receives the placeholder and may itself create and
    bind placeholders. *)
Definition recursive1
    (recipe_fn : Parser -> RefState -> Res (Parser * RefState))
    (h : RefState) : Res (Parser * RefState) :=
  let (tbd, h1) := ParserRef_new h in
  do out <- recipe_fn (RefObj tbd) h1;
  let (actual, h2) := out in
  do st' <- set_ref (refs h2) tbd actual;
  Ret (actual, mkRefState (next_ref h2) st').

(** [tuple(ParserRef() for _ in range(arity))]. *)
Fixpoint new_refs (arity : nat) (h : RefState) : list loc * RefState :=
  match arity with
  | 0 => ([], h)
  | S k =>
      let (r, h1) := ParserRef_new h in
      let (rs, h2) := new_refs k h1 in
      (r :: rs, h2)
  end.

(** [for (tbd, actual) in zip(tbds, actuals): tbd.set_ref(actual)]. *)
Fixpoint bind_all (st : gmap loc Parser) (tbds : list loc)
    (actuals : list Parser) : Res (gmap loc Parser) :=
  match tbds, actuals with
  | tbd :: tbds', actual :: actuals' =>
      do st' <- set_ref st tbd actual;
      bind_all st' tbds' actuals'
  | _, _ => Ret st
  end.

(** [recursive(recipe_fn, arity)] with [arity != 1]. *)
Definition recursiveN (arity : nat)
    (recipe_fn : list Parser -> RefState -> Res (list Parser * RefState))
    (h : RefState) : Res (list Parser * RefState) :=
  let (tbds, h1) := new_refs arity h in
  do out <- recipe_fn (map RefObj tbds) h1;
  let (actuals, h2) := out in
  do st' <- bind_all (refs h2) tbds actuals;
  Ret (actuals, mkRefState (next_ref h2) st').

(** ** Object identity of parsers

    The pipeline operations either [return self] or return the object
    made by [_copy_with].  To tell the two apart, parser objects are
    kept in a heap: an address is an index, [Parser(...)] appends. *)
Module Objects.

#[local] Abbreviation heap := (list Parser).
#[local] Abbreviation addr := nat.

(** The constructor call [Parser(...)] that yields the object [p]. *)
Definition new (h : heap) (p : Parser) : heap * addr :=
  (h ++ [p], List.length h).

(** The reference [r] did not exist in [h]. *)
Definition fresh (h : heap) (r : addr) : Prop := List.length h <= r.

(** [self._copy_with] with keyword arguments [kw] for the object at [self]: a new object. *)
Definition m_copy_with (h : heap) (self : addr) (kw : kwargs)
  : option (heap * addr) :=
  match h !! self with
  | None => None
  | Some p => Some (new h (_copy_with p kw))
  end.

Definition m_conv (h : heap) (self : addr) (fns : list Conv)
  : option (heap * addr) :=
  match fns with
  | [] => Some (h, self)
  | _ => m_copy_with h self (mkKwargs (Some fns) None None)
  end.

Definition m_zipconv (h : heap) (self : addr) (fns : list (option Conv))
  : option (heap * addr) :=
  if forallb (fun fn => match fn with None => true | Some _ => false end)
             fns
  then Some (h, self)
  else m_copy_with h self (mkKwargs (Some [elem_converter fns]) None None).

Definition m_const (h : heap) (self : addr) (val : value)
  : option (heap * addr) :=
  m_copy_with h self (mkKwargs (Some [fun _ => Ret val]) None None).

Definition m_skip (h : heap) (self : addr) : option (heap * addr) :=
  m_copy_with h self (mkKwargs (Some [fun _ => Ret VSkip]) None (Some VNone)).

Definition m_trim_ws (h : heap) (self : addr) (enable : bool)
  : option (heap * addr) :=
  match h !! self with
  | None => None
  | Some p =>
      if Bool.eqb (_trim_ws p) enable then Some (h, self)
      else m_copy_with h self (mkKwargs None (Some enable) None)
  end.

Definition m_tag (h : heap) (self : addr) (t : value)
  : option (heap * addr) :=
  match h !! self with
  | None => None
  | Some p =>
      if py_eq (_tag p) t then Some (h, self)
      else m_copy_with h self (mkKwargs None None (Some t))
  end.

(** The six pipeline operations with their arguments. *)
Inductive op : Type :=
| Conv_ (fns : list Conv)
| Zipconv (fns : list (option Conv))
| Const (val : value)
| Skip
| TrimWs (enable : bool)
| Tag (t : value).

(** Calling an operation on the object at [self]; [None] when [self]
    is not an object of [h]. *)
Definition call (o : op) (h : heap) (self : addr) : option (heap * addr) :=
  match h !! self with
  | None => None
  | Some _ =>
      match o with
      | Conv_ fns => m_conv h self fns
      | Zipconv fns => m_zipconv h self fns
      | Const val => m_const h self val
      | Skip => m_skip h self
      | TrimWs enable => m_trim_ws h self enable
      | Tag t => m_tag h self t
      end
  end.

(** The same operation on the value of the object. *)
Definition apply (o : op) (self : Parser) : Parser :=
  match o with
  | Conv_ fns => conv self fns
  | Zipconv fns => zipconv self fns
  | Const val => const self val
  | Skip => skip self
  | TrimWs enable => trim_ws self enable
  | Tag t => tag self t
  end.

(** The operation changes nothing and the method returns [self]. *)
Definition returns_self (o : op) (self : Parser) : bool :=
  match o with
  | Conv_ fns => match fns with [] => true | _ => false end
  | Zipconv fns =>
      forallb (fun fn => match fn with None => true | Some _ => false end)
              fns
  | Const _ => false
  | Skip => false
  | TrimWs enable => Bool.eqb (_trim_ws self) enable
  | Tag t => py_eq (_tag self) t
  end.

(** [self.run(s, i)] for the object at [self]. *)
Definition m_run (fuel : nat) (st : gmap loc Parser) (h : heap)
    (self : addr) (s : string) (i : nat) : option (Res parse_ret) :=
  match h !! self with
  | None => None
  | Some p => Some (run fuel st p s i)
  end.

End Objects.

(** ** The pattern [[0-9]+]

    What [re.compile("[0-9]+").match(s, i)] does: the longest run of
    ASCII digits at [i], at least one; the pattern has no group. *)
Definition is_digit (c : ascii) : bool :=
  let n := nat_of_ascii c in (48 <=? n) && (n <=? 57).

Fixpoint digits_prefix (s : string) : string :=
  match s with
  | EmptyString => EmptyString
  | String c s' => if is_digit c then String c (digits_prefix s') else EmptyString
  end.

Definition digits_match (s : string) (i : nat) : option Match :=
  match digits_prefix (drop_str i s) with
  | EmptyString => None
  | d => Some (mkMatch (i + String.length d) d [] [])
  end.

Definition digits_pattern : Pattern := mkPattern digits_match.

(** ** Vocabulary of the statements

    Outcomes compared up to fuel, what a run yields, and the relations
    that describe sequences, alternatives and repetitions of runs. *)

(** [o2] is what [o1] becomes with more fuel. *)
Definition res_le {A} (o1 o2 : Res A) : Prop :=
  o1 = OutOfFuel \/ o1 = o2.

(** [p.run(s, i)] returns or raises [o]. *)
Definition yields (st : gmap loc Parser) (p : Parser) (s : string) (i : nat)
    (o : Res parse_ret) : Prop :=
  o <> OutOfFuel /\ exists fuel, run fuel st p s i = o.

(** [p.run(s, i)] does not return: no amount of fuel is enough. *)
Definition diverges (st : gmap loc Parser) (p : Parser) (s : string)
    (i : nat) : Prop :=
  forall fuel, run fuel st p s i = OutOfFuel.

(** Two parsers that cannot be told apart by [run] or [parse]. *)
Definition same_behaviour (p q : Parser) : Prop :=
  (forall fuel st s i, run fuel st p s i = run fuel st q s i) /\
  (forall fuel st s, parse fuel st p s = parse fuel st q s).

(** Every parser of the list fails at [i]. *)
Definition all_fail (st : gmap loc Parser) (ps : list Parser) (s : string)
    (i : nat) : Prop :=
  Forall (fun q => yields st q s i (Ret None)) ps.

(** [p] is the first parser of [ps] that succeeds at [i], with [r]. *)
Definition first_success (st : gmap loc Parser) (ps : list Parser)
    (s : string) (i : nat) (r : value * nat) : Prop :=
  exists l1 p l2,
    ps = l1 ++ p :: l2 /\ all_fail st l1 s i /\
    yields st p s i (Ret (Some r)).

(** [p1 | p2 | ... | pn], as Python builds it from the left. *)
Definition alternation (p1 p2 : Parser) (ps : list Parser) : Parser :=
  fold_left __or__ ps (__or__ p1 p2).

(** What one child result adds to the list of a chain or a star. *)
Definition contrib (r : value) : list value := _add_result [] r.

(** The list built from the child results [rs], in order. *)
Definition collect (rs : list value) : list value :=
  List.concat (map contrib rs).

(** The parsers of the list succeed one after the other from [i] to
    [j], with results [rs]. *)
Inductive seq_run (st : gmap loc Parser) (s : string)
  : list Parser -> nat -> list value -> nat -> Prop :=
| seq_nil i : seq_run st s [] i [] i
| seq_cons p ps i r i' rs j :
    yields st p s i (Ret (Some (r, i'))) ->
    seq_run st s ps i' rs j ->
    seq_run st s (p :: ps) i (r :: rs) j.

(** Some parser of the list fails where the ones before it have led. *)
Definition seq_fail (st : gmap loc Parser) (s : string) (ps : list Parser)
    (i : nat) : Prop :=
  exists l1 p l2 rs j,
    ps = l1 ++ p :: l2 /\ seq_run st s l1 i rs j /\
    yields st p s j (Ret None).

(** The children an argument of [_ParserChain] contributes. *)
Definition chain_children (p : Parser) : list Parser :=
  match p with ChainObj ps => ps | _ => [p] end.

(** [p] succeeds [length rs] times in a row from [i] to [j], with
    results [rs]. *)
Inductive reps (st : gmap loc Parser) (p : Parser) (s : string)
  : nat -> list value -> nat -> Prop :=
| reps_nil i : reps st p s i [] i
| reps_cons i r i' rs j :
    yields st p s i (Ret (Some (r, i'))) ->
    reps st p s i' rs j ->
    reps st p s i (r :: rs) j.

(** The count [c] does not exceed [at_most]. *)
Definition within (at_most : option nat) (c : nat) : Prop :=
  match at_most with None => True | Some m => c <= m end.

(** The loop of [star] is left after [c] repetitions at position [j]:
    [p] fails there, or the upper bound is reached. *)
Definition loop_left (st : gmap loc Parser) (p : Parser)
    (at_most : option nat) (s : string) (c j : nat) : Prop :=
  (within at_most c /\ yields st p s j (Ret None)) \/ at_most = Some c.

(** The result handed out by [run] for the converted result [v]: the
    pair of [_Tagged] when a tag is set. *)
Definition tagged_with (t v : value) : value :=
  if negb (is_None t) then VTagged t v else v.

(** The mapping [match.groupdict()] as a value. *)
Definition groupdict_value (m : Match) : value :=
  VDict (map (fun kv => (fst kv, of_group (snd kv))) (m_groupdict m)).

(** [r] is the result of some successful run of [p] on [s]. *)
Definition result_of (st : gmap loc Parser) (p : Parser) (s : string)
    (r : value) : Prop :=
  exists i j, yields st p s i (Ret (Some (r, j))).

(** A recipe that binds the placeholder it is given to [chomp(1)] and
    returns [chomp(2)]; [recursive] then binds the placeholder again. *)
Definition binding_recipe (tbd : Parser) (h : RefState)
  : Res (Parser * RefState) :=
  match tbd with
  | RefObj r =>
      do st' <- set_ref (refs h) r (chomp 1);
      Ret (chomp 2, mkRefState (next_ref h) st')
  | _ => Raise (TypeError "not a ParserRef")
  end.

(** The recipe of balanced parentheses: ["("], at most one inner
    group, [")"]. *)
Definition parens_recipe (inner : Parser) (h : RefState)
  : Res (Parser * RefState) :=
  Ret (_ParserChain [ex "("; star inner 0 (Some 1); ex ")"], h).

Definition parse_parens (fuel : nat) (s : string) : Res value :=
  do out <- recursive1 parens_recipe (mkRefState 0 ∅);
  parse fuel (refs (snd out)) (fst out) s.

(** What [re.compile("(?=a)").match(s, i)] does: the empty match at
    [i] when the character at [i] is ["a"], no match otherwise. *)
Definition lookahead_a : Pattern :=
  mkPattern (fun s i =>
    match drop_str i s with
    | String c _ =>
        if Ascii.eqb c "a" then Some (mkMatch i "" [] []) else None
    | EmptyString => None
    end).

(** [regex("(?=a)") | star(chomp(0))]: in front of an ["a"] it succeeds
    without advancing; elsewhere it runs the unbounded repetition of a
    parser that never advances. *)
Definition stay_or_loop : Parser :=
  __or__ (regex (fun _ => lookahead_a) "(?=a)") (star (chomp 0) 0 None).

(** A pattern like [(?P<x>a)(b)(c)] on ["abc"]: one named group and
    two unnamed ones. *)
Definition named_and_unnamed : Pattern :=
  mkPattern (fun s i =>
    if startswith s "abc" i
    then Some (mkMatch (i + 3) "abc" [Some "a"; Some "b"; Some "c"]
                       [("x", Some "a")])
    else None).

(** Parse functions that keep to the input: started inside the input
    they end inside it and not before where they started.  The parse
    functions of the library do when the parsers they are made of do
    ([chomp] with its [n >= 0]); a parse function of the caller and a
    compiled pattern have to be known to; a placeholder is judged by what
    the store binds it to. *)
Inductive stays_inside_fn : ParseFn -> Prop :=
| inside_user f :
    (forall s i r j,
        i <= String.length s -> f s i = Ret (Some (r, j)) ->
        i <= j <= String.length s) ->
    stays_inside_fn (FnUser f)
| inside_ex z : stays_inside_fn (FnEx z)
| inside_regex patt :
    (forall s i m,
        i <= String.length s -> p_match patt s i = Some m ->
        i <= m_end m <= String.length s) ->
    stays_inside_fn (FnRegex patt)
| inside_chomp n : stays_inside_fn (FnChomp n)
| inside_star p at_least at_most :
    stays_inside_fn (_parse_fn p) ->
    stays_inside_fn (FnStar p at_least at_most)
| inside_contextual c recipe_fn :
    stays_inside_fn (_parse_fn c) ->
    (forall v q, recipe_fn v = Ret q -> stays_inside_fn (_parse_fn q)) ->
    stays_inside_fn (FnContextual c recipe_fn)
| inside_chain ps :
    Forall (fun p => stays_inside_fn (_parse_fn p)) ps ->
    stays_inside_fn (FnChainDoParse ps)
| inside_first ps :
    Forall (fun p => stays_inside_fn (_parse_fn p)) ps ->
    stays_inside_fn (FnFirstMatchDoParse ps)
| inside_ref r : stays_inside_fn (FnRunRef r).

Definition stays_inside (p : Parser) : Prop := stays_inside_fn (_parse_fn p).

(** ** Fuel

    More fuel never changes an outcome other than [OutOfFuel]. *)

Lemma res_le_refl {A} (o : Res A) : res_le o o.
Proof. now right. Qed.

Lemma res_le_bind {A B} (m1 m2 : Res A) (k1 k2 : A -> Res B) :
  res_le m1 m2 ->
  (forall a, res_le (k1 a) (k2 a)) ->
  res_le (bind m1 k1) (bind m2 k2).
Proof.
  intros [-> | ->] Hk; [now left |].
  destruct m2; simpl; auto using res_le_refl.
Qed.

Section Monotone.

Variables rec1 rec2 : Parser -> string -> nat -> Res parse_ret.
Hypothesis rec_le : forall p s i, res_le (rec1 p s i) (rec2 p s i).

Lemma chain_loop_le ps acc s i :
  res_le (chain_loop rec1 ps acc s i) (chain_loop rec2 ps acc s i).
Proof.
  revert acc i; induction ps as [| p ps IH]; intros acc i; simpl.
  - apply res_le_refl.
  - apply res_le_bind; [apply rec_le |].
    intros [[r j] |]; [apply IH | apply res_le_refl].
Qed.

Lemma first_do_parse_le ps s i :
  res_le (first_do_parse rec1 ps s i) (first_do_parse rec2 ps s i).
Proof.
  induction ps as [| p ps IH]; simpl.
  - apply res_le_refl.
  - apply res_le_bind; [apply rec_le |].
    intros [r |]; [apply res_le_refl | apply IH].
Qed.

Lemma star_loop_le f1 f2 p at_most s rc acc i :
  f1 <= f2 ->
  res_le (star_loop rec1 f1 p at_most s rc acc i)
         (star_loop rec2 f2 p at_most s rc acc i).
Proof.
  revert f2 rc acc i; induction f1 as [| f1 IH]; intros f2 rc acc i Hle.
  - now left.
  - destruct f2 as [| f2]; [lia |]. simpl.
    destruct (match at_most with None => true | Some m => rc <? m end);
      [| apply res_le_refl].
    apply res_le_bind; [apply rec_le |].
    intros [[r j] |]; [apply IH; lia | apply res_le_refl].
Qed.

Lemma call_parse_fn_le f1 f2 st fn s i :
  f1 <= f2 ->
  res_le (call_parse_fn rec1 f1 st fn s i) (call_parse_fn rec2 f2 st fn s i).
Proof.
  intros Hle. destruct fn; simpl; try apply res_le_refl.
  - unfold star_parse_fn. apply res_le_bind; [now apply star_loop_le |].
    intros [[rc acc] j]. apply res_le_refl.
  - unfold contextual_parse_fn. apply res_le_bind; [apply rec_le |].
    intros [[c j] |]; [| apply res_le_refl].
    apply res_le_bind; [apply res_le_refl | intros q; apply rec_le].
  - apply chain_loop_le.
  - apply first_do_parse_le.
  - unfold run_ref. destruct (st !! r); [apply rec_le | apply res_le_refl].
Qed.

Lemma run_body_le f1 f2 st p s i :
  f1 <= f2 ->
  res_le (run_body rec1 f1 st p s i) (run_body rec2 f2 st p s i).
Proof.
  intros Hle. unfold run_body.
  apply res_le_bind; [now apply call_parse_fn_le |].
  intros [[r j] |]; apply res_le_refl.
Qed.

End Monotone.

Lemma run_le n m st p s i :
  n <= m -> res_le (run n st p s i) (run m st p s i).
Proof.
  revert m p s i; induction n as [| n IH]; intros m p s i Hle.
  - now left.
  - destruct m as [| m]; [lia |]. simpl.
    apply run_body_le; [| lia]. intros q t j. apply IH. lia.
Qed.

Lemma run_mono n m st p s i o :
  run n st p s i = o -> o <> OutOfFuel -> n <= m -> run m st p s i = o.
Proof.
  intros H Ho Hle. destruct (run_le n m st p s i Hle) as [E | E]; congruence.
Qed.

Lemma run_det n m st p s i :
  run n st p s i <> OutOfFuel -> run m st p s i <> OutOfFuel ->
  run n st p s i = run m st p s i.
Proof.
  intros Hn Hm. destruct (Nat.le_ge_cases n m) as [Hle | Hle].
  - symmetry. now apply (run_mono n m).
  - now apply (run_mono m n).
Qed.

Lemma yields_det st p s i o1 o2 :
  yields st p s i o1 -> yields st p s i o2 -> o1 = o2.
Proof.
  intros [H1 [n E1]] [H2 [m E2]]. subst.
  apply run_det; assumption.
Qed.

(** ** Plain composites *)

(** A parser with the default pipeline runs its parse function and
    nothing else. *)
Lemma bind_ret_id (m : Res parse_ret) :
  bind m (fun pr =>
            match pr with
            | None => Ret None
            | Some (result, new_i) => Ret (Some (result, new_i))
            end) = m.
Proof. destruct m as [[[r j] |] | |]; reflexivity. Qed.

Lemma run_chain fuel st ps s i :
  run (S fuel) st (ChainObj ps) s i = chain_do_parse (run fuel st) ps s i.
Proof. simpl. unfold run_body. simpl. apply bind_ret_id. Qed.

Lemma run_first fuel st ps s i :
  run (S fuel) st (FirstMatchObj ps) s i = first_do_parse (run fuel st) ps s i.
Proof. simpl. unfold run_body. simpl. apply bind_ret_id. Qed.

Lemma run_star fuel st p k m s i :
  run (S fuel) st (star p k m) s i = star_parse_fn (run fuel st) fuel p k m s i.
Proof. simpl. unfold run_body. simpl. apply bind_ret_id. Qed.

Lemma flatten_chain_app l1 l2 :
  flatten_chain (l1 ++ l2) = flatten_chain l1 ++ flatten_chain l2.
Proof. apply flat_map_app. Qed.

Lemma flatten_first_app l1 l2 :
  flatten_first (l1 ++ l2) = flatten_first l1 ++ flatten_first l2.
Proof. apply flat_map_app. Qed.

(** Nesting to the left or to the right builds the object that the
    single call builds. *)
Lemma add_assoc_left a b c :
  __add__ (__add__ a b) c = _ParserChain [a; b; c].
Proof.
  unfold __add__, _ParserChain. f_equal.
  change [a; b; c] with ([a; b] ++ [c]).
  rewrite flatten_chain_app. simpl. now rewrite !app_nil_r.
Qed.

Lemma add_assoc_right a b c :
  __add__ a (__add__ b c) = _ParserChain [a; b; c].
Proof.
  unfold __add__, _ParserChain. f_equal.
  change [a; b; c] with ([a] ++ [b; c]).
  rewrite !flatten_chain_app. simpl. now rewrite !app_nil_r.
Qed.

Lemma or_assoc_left a b c :
  __or__ (__or__ a b) c = _ParserFirstMatch [a; b; c].
Proof.
  unfold __or__, _ParserFirstMatch. f_equal.
  change [a; b; c] with ([a; b] ++ [c]).
  rewrite flatten_first_app. simpl. now rewrite !app_nil_r.
Qed.

Lemma or_assoc_right a b c :
  __or__ a (__or__ b c) = _ParserFirstMatch [a; b; c].
Proof.
  unfold __or__, _ParserFirstMatch. f_equal.
  change [a; b; c] with ([a] ++ [b; c]).
  rewrite !flatten_first_app. simpl. now rewrite !app_nil_r.
Qed.

(** C1.  For all parsers a, b and c, the composites (a+b)+c and a+(b+c)
    behave as the three-way sequence built in one call, and (a|b)|c and
    a|(b|c) as the three-way alternation built in one call: on every
    input and start position [run] gives the same outcome (same result
    list, same end position, same failure), and [parse] accepts the same
    strings with the same result. *)
Theorem flattening_unobservable (a b c : Parser) :
  same_behaviour (__add__ (__add__ a b) c) (_ParserChain [a; b; c]) /\
  same_behaviour (__add__ a (__add__ b c)) (_ParserChain [a; b; c]) /\
  same_behaviour (__or__ (__or__ a b) c) (_ParserFirstMatch [a; b; c]) /\
  same_behaviour (__or__ a (__or__ b c)) (_ParserFirstMatch [a; b; c]).
Proof.
  rewrite add_assoc_left, add_assoc_right, or_assoc_left, or_assoc_right.
  unfold same_behaviour. repeat split; reflexivity.
Qed.

(** C2.  [p.parse(s)] is decided by [p.run(s, 0)]: when [run] fails,
    [parse] reports [None]; when [run] succeeds at an end position other
    than [len(s)], [parse] reports [None]; when [run] succeeds at
    [len(s)], [parse] returns the result component of [run]'s return
    value; and [parse] raises or fails to return exactly as [run]
    does. *)
Theorem parse_whole_input fuel st (p : Parser) (s : string) :
  (run fuel st p s 0 = Ret None -> parse fuel st p s = Ret VNone) /\
  (forall r e, run fuel st p s 0 = Ret (Some (r, e)) ->
               e <> String.length s -> parse fuel st p s = Ret VNone) /\
  (forall r, run fuel st p s 0 = Ret (Some (r, String.length s)) ->
             parse fuel st p s = Ret r) /\
  (forall x, run fuel st p s 0 = Raise x -> parse fuel st p s = Raise x) /\
  (run fuel st p s 0 = OutOfFuel -> parse fuel st p s = OutOfFuel).
Proof.
  unfold parse. repeat split.
  - intros ->. reflexivity.
  - intros r e -> Hne. simpl.
    destruct (Nat.eqb_spec e (String.length s)); [contradiction | reflexivity].
  - intros r ->. simpl. now rewrite Nat.eqb_refl.
  - intros x ->. reflexivity.
  - intros ->. reflexivity.
Qed.

Lemma parse_whole_input_witness :
  parse 2 ∅ (chomp 1) "a" = Ret (VStr "a") /\
  parse 2 ∅ (chomp 1) "ab" = Ret VNone /\
  parse 2 ∅ (chomp 1) "" = Ret VNone.
Proof.
  split; [| split].
  - apply (parse_whole_input 2 ∅ (chomp 1) "a"). reflexivity.
  - apply (proj1 (proj2 (parse_whole_input 2 ∅ (chomp 1) "ab")) (VStr "a") 1).
    + reflexivity.
    + simpl. lia.
  - apply (proj1 (parse_whole_input 2 ∅ (chomp 1) "")). reflexivity.
Defined.

(** ** Ordered alternation *)

Lemma yields_intro fuel st p s i o :
  run fuel st p s i = o -> o <> OutOfFuel -> yields st p s i o.
Proof. intros H Ho. split; [assumption | now exists fuel]. Qed.

Lemma yields_stable st p s i o :
  yields st p s i o -> exists n, forall m, n <= m -> run m st p s i = o.
Proof.
  intros [Ho [n Hn]]. exists n. intros m Hm. now apply (run_mono n m).
Qed.

Lemma first_do_parse_app rec l1 l2 s i :
  first_do_parse rec (l1 ++ l2) s i =
  bind (first_do_parse rec l1 s i)
       (fun pr => match pr with
                  | Some r => Ret (Some r)
                  | None => first_do_parse rec l2 s i
                  end).
Proof.
  induction l1 as [| p l1 IH]; simpl; [reflexivity |].
  destruct (rec p s i) as [[r |] | |]; simpl; auto.
Qed.

Lemma first_flatten_lower n st ps s i :
  res_le (first_do_parse (run n st) ps s i)
         (first_do_parse (run n st) (flatten_first ps) s i).
Proof.
  induction ps as [| p ps IH]; simpl; [apply res_le_refl |].
  change (flatten_first ps)
    with (flat_map (fun p => match p with FirstMatchObj l => l | _ => [p] end)
                   ps) in IH.
  assert (Hsame :
    res_le (bind (run n st p s i)
                 (fun pr => match pr with
                            | Some r => Ret (Some r)
                            | None => first_do_parse (run n st) ps s i
                            end))
           (bind (run n st p s i)
                 (fun pr => match pr with
                            | Some r => Ret (Some r)
                            | None =>
                                first_do_parse (run n st) (flatten_first ps) s i
                            end))).
  { apply res_le_bind; [apply res_le_refl |].
    intros [r |]; [apply res_le_refl | apply IH]. }
  destruct p as [f cs t g | cs | cs | r]; try exact Hsame.
  rewrite first_do_parse_app.
  apply res_le_bind.
  - destruct n as [| n]; [now left |]. rewrite run_first.
    apply first_do_parse_le. intros q t j. apply run_le. lia.
  - intros [r |]; [apply res_le_refl | apply IH].
Qed.

Lemma first_flatten_upper n st ps s i :
  res_le (first_do_parse (run n st) (flatten_first ps) s i)
         (first_do_parse (run (S n) st) ps s i).
Proof.
  induction ps as [| p ps IH]; [apply res_le_refl |].
  change (first_do_parse (run (S n) st) (p :: ps) s i)
    with (bind (run (S n) st p s i)
               (fun pr => match pr with
                          | Some r => Ret (Some r)
                          | None => first_do_parse (run (S n) st) ps s i
                          end)).
  assert (Hsame :
    res_le (first_do_parse (run n st) ([p] ++ flatten_first ps) s i)
           (bind (run (S n) st p s i)
                 (fun pr => match pr with
                            | Some r => Ret (Some r)
                            | None => first_do_parse (run (S n) st) ps s i
                            end))).
  { cbn [app first_do_parse].
    apply res_le_bind; [apply (run_le n (S n)); lia |].
    intros [r |]; [apply res_le_refl | apply IH]. }
  destruct p as [f cs t g | cs | cs | r]; try exact Hsame.
  change (flatten_first (FirstMatchObj cs :: ps))
    with (cs ++ flatten_first ps).
  rewrite first_do_parse_app, run_first.
  apply res_le_bind; [apply res_le_refl |].
  intros [r |]; [apply res_le_refl | apply IH].
Qed.

Lemma first_None_sound n st ps s i :
  first_do_parse (run n st) ps s i = Ret None -> all_fail st ps s i.
Proof.
  induction ps as [| p ps IH]; simpl; intros H; [constructor |].
  destruct (run n st p s i) as [[r |] | |] eqn:E; simpl in H; try discriminate.
  constructor; [| now apply IH].
  now apply (yields_intro n).
Qed.

Lemma first_None_complete st ps s i :
  all_fail st ps s i ->
  exists n, forall m, n <= m -> first_do_parse (run m st) ps s i = Ret None.
Proof.
  induction 1 as [| p ps Hp _ [n IH]].
  - exists 0. reflexivity.
  - apply yields_stable in Hp as [k Hk].
    exists (k + n). intros m Hm. simpl.
    rewrite Hk by lia. simpl. apply IH. lia.
Qed.

Lemma first_Some_sound n st ps s i r :
  first_do_parse (run n st) ps s i = Ret (Some r) ->
  first_success st ps s i r.
Proof.
  induction ps as [| p ps IH]; simpl; intros H; [discriminate |].
  destruct (run n st p s i) as [[r' |] | |] eqn:E; simpl in H; try discriminate.
  - injection H as ->. exists [], p, ps. repeat split.
    + constructor.
    + discriminate.
    + now exists n.
  - destruct (IH H) as (l1 & q & l2 & -> & Hl1 & Hq).
    exists (p :: l1), q, l2. repeat split; try apply Hq.
    constructor; [| assumption]. now apply (yields_intro n).
Qed.

Lemma first_Some_complete st ps s i r :
  first_success st ps s i r ->
  exists n, forall m, n <= m ->
                      first_do_parse (run m st) ps s i = Ret (Some r).
Proof.
  intros (l1 & p & l2 & -> & Hl1 & Hp).
  apply first_None_complete in Hl1 as [n Hn].
  apply yields_stable in Hp as [k Hk].
  exists (n + k). intros m Hm.
  rewrite first_do_parse_app, Hn by lia. simpl.
  rewrite Hk by lia. reflexivity.
Qed.

(** The outcome of [_ParserFirstMatch] in terms of the parsers
    given to the constructor (before flattening). *)
Lemma first_match_None st ps s i :
  yields st (_ParserFirstMatch ps) s i (Ret None) <-> all_fail st ps s i.
Proof.
  split.
  - intros [_ [[| n] H]]; [discriminate |].
    unfold _ParserFirstMatch in H. rewrite run_first in H.
    destruct (first_flatten_upper n st ps s i) as [E | E]; [congruence |].
    rewrite H in E. symmetry in E. now apply first_None_sound in E.
  - intros H. apply first_None_complete in H as [n Hn].
    apply (yields_intro (S n)); [| discriminate].
    unfold _ParserFirstMatch. rewrite run_first.
    destruct (first_flatten_lower n st ps s i) as [E | E].
    + rewrite Hn in E by lia. discriminate.
    + rewrite <- E. apply Hn. lia.
Qed.

Lemma first_match_Some st ps s i r :
  yields st (_ParserFirstMatch ps) s i (Ret (Some r)) <->
  first_success st ps s i r.
Proof.
  split.
  - intros [_ [[| n] H]]; [discriminate |].
    unfold _ParserFirstMatch in H. rewrite run_first in H.
    destruct (first_flatten_upper n st ps s i) as [E | E]; [congruence |].
    rewrite H in E. symmetry in E. now apply first_Some_sound in E.
  - intros H. apply first_Some_complete in H as [n Hn].
    apply (yields_intro (S n)); [| discriminate].
    unfold _ParserFirstMatch. rewrite run_first.
    destruct (first_flatten_lower n st ps s i) as [E | E].
    + rewrite Hn in E by lia. discriminate.
    + rewrite <- E. apply Hn. lia.
Qed.

Lemma alternation_flat p1 p2 ps :
  alternation p1 p2 ps = _ParserFirstMatch (p1 :: p2 :: ps).
Proof.
  unfold alternation, __or__, _ParserFirstMatch.
  change (p1 :: p2 :: ps) with ([p1; p2] ++ ps).
  rewrite flatten_first_app.
  generalize (flatten_first [p1; p2]) as l.
  induction ps as [| q ps IH]; intros l; simpl.
  - now rewrite app_nil_r.
  - unfold _ParserFirstMatch.
    change (flatten_first [FirstMatchObj l; q])
      with (l ++ flatten_first [q]).
    rewrite IH. f_equal. rewrite <- app_assoc. f_equal.
    simpl. now rewrite app_nil_r.
Qed.

(** C3.  The alternation of [children] (built with the constructor or
    as p1 | p2 | ...) run at [i]: it succeeds with [r] exactly when some
    child succeeds with [r] at [i] after every child before it failed at
    [i]; the children after that one play no part, whatever they are;
    and it fails exactly when every child fails at [i].  In particular,
    when [a] matches one character and [b] a longer prefix, [a | b]
    returns [a]'s result. *)
Theorem first_match_semantics st (children : list Parser) (s : string)
    (i : nat) :
  (forall r, yields st (_ParserFirstMatch children) s i (Ret (Some r)) <->
             first_success st children s i r) /\
  (forall l1 p r,
      all_fail st l1 s i -> yields st p s i (Ret (Some r)) ->
      forall l2,
        yields st (_ParserFirstMatch (l1 ++ p :: l2)) s i (Ret (Some r))) /\
  (yields st (_ParserFirstMatch children) s i (Ret None) <->
   all_fail st children s i) /\
  (forall p1 p2 ps,
      children = p1 :: p2 :: ps ->
      alternation p1 p2 ps = _ParserFirstMatch children) /\
  (forall a b ra rb j,
      yields st a s i (Ret (Some (ra, i + 1))) ->
      yields st b s i (Ret (Some (rb, j))) -> i + 1 < j ->
      yields st (__or__ a b) s i (Ret (Some (ra, i + 1)))).
Proof.
  split; [| split; [| split; [| split]]].
  - intros r. apply first_match_Some.
  - intros l1 p r Hl1 Hp l2. apply first_match_Some.
    now exists l1, p, l2.
  - apply first_match_None.
  - intros p1 p2 ps ->. apply alternation_flat.
  - intros a b ra rb j Ha _ _. apply first_match_Some.
    exists [], a, [b].
    split; [reflexivity | split; [constructor | assumption]].
Qed.

Lemma first_match_semantics_witness :
  yields ∅ (__or__ (chomp 1) (chomp 2)) "ab" 0 (Ret (Some (VStr "a", 1))).
Proof.
  apply (proj2 (proj2 (proj2 (proj2
           (first_match_semantics ∅ [chomp 1; chomp 2] "ab" 0))))
           (chomp 1) (chomp 2) (VStr "a") (VStr "ab") 2).
  - split; [discriminate | exists 1; reflexivity].
  - split; [discriminate | exists 1; reflexivity].
  - lia.
Defined.

(** First match, not longest match: [chomp(1) | chomp(2)] on ["ab"]. *)
Example first_match_not_longest :
  run 2 ∅ (chomp 1) "ab" 0 = Ret (Some (VStr "a", 1)) /\
  run 2 ∅ (chomp 2) "ab" 0 = Ret (Some (VStr "ab", 2)) /\
  run 2 ∅ (__or__ (chomp 1) (chomp 2)) "ab" 0 = Ret (Some (VStr "a", 1)).
Proof. repeat split; reflexivity. Qed.

(** ** Result lists *)

Lemma add_result_contrib acc r : _add_result acc r = acc ++ contrib r.
Proof. destruct r; simpl; try reflexivity. now rewrite app_nil_r. Qed.

Lemma filter_idem {A} (f : A -> bool) l :
  List.filter f (List.filter f l) = List.filter f l.
Proof.
  induction l as [| x l IH]; simpl; [reflexivity |].
  destruct (f x) eqn:E; simpl; [rewrite E; now f_equal | assumption].
Qed.

Lemma contrib_not_None r :
  List.filter (fun z => negb (is_None z)) (contrib r) = contrib r.
Proof.
  destruct r; simpl; try reflexivity. apply filter_idem.
Qed.

Lemma collect_not_None rs :
  List.filter (fun z => negb (is_None z)) (collect rs) = collect rs.
Proof.
  unfold collect. induction rs as [| r rs IH]; simpl; [reflexivity |].
  now rewrite List.filter_app, contrib_not_None, IH.
Qed.

Lemma contrib_collect rs : contrib (VList (collect rs)) = collect rs.
Proof. apply collect_not_None. Qed.

Lemma collect_app rs1 rs2 : collect (rs1 ++ rs2) = collect rs1 ++ collect rs2.
Proof. unfold collect. now rewrite List.map_app, List.concat_app. Qed.

Lemma collect_cons r rs : collect (r :: rs) = contrib r ++ collect rs.
Proof. reflexivity. Qed.

(** ** Sequences *)

Lemma seq_run_app st s l1 l2 i rs j :
  seq_run st s (l1 ++ l2) i rs j <->
  exists rs1 rs2 k,
    seq_run st s l1 i rs1 k /\ seq_run st s l2 k rs2 j /\ rs = rs1 ++ rs2.
Proof.
  split.
  - revert i rs. induction l1 as [| p l1 IH]; intros i rs H; simpl in H.
    + exists [], rs, i. repeat split; [constructor | assumption].
    + inversion H as [| ? ? ? r i' rs' ? Hp Hrest]; subst.
      destruct (IH _ _ Hrest) as (rs1 & rs2 & k & H1 & H2 & ->).
      exists (r :: rs1), rs2, k. repeat split; [| assumption].
      econstructor; eassumption.
  - intros (rs1 & rs2 & k & H1 & H2 & ->).
    induction H1 as [i | p ps i r i' rs1 k Hp _ IH]; simpl; [assumption |].
    econstructor; [eassumption | now apply IH].
Qed.

Lemma seq_fail_cons st s p ps i r i' :
  yields st p s i (Ret (Some (r, i'))) ->
  seq_fail st s ps i' -> seq_fail st s (p :: ps) i.
Proof.
  intros Hp (l1 & q & l2 & rs & j & -> & Hl1 & Hq).
  exists (p :: l1), q, l2, (r :: rs), j.
  split; [reflexivity | split; [| assumption]].
  econstructor; eassumption.
Qed.

Lemma seq_fail_app_l st s l1 l2 i :
  seq_fail st s l1 i -> seq_fail st s (l1 ++ l2) i.
Proof.
  intros (a & q & b & rs & j & -> & Ha & Hq).
  exists a, q, (b ++ l2), rs, j.
  split; [| split; assumption].
  now rewrite <- app_assoc.
Qed.

Lemma seq_fail_app_r st s l1 l2 i rs k :
  seq_run st s l1 i rs k -> seq_fail st s l2 k -> seq_fail st s (l1 ++ l2) i.
Proof.
  induction 1 as [i | p ps i r i' rs k Hp _ IH]; intros Hf; [assumption |].
  simpl. eapply seq_fail_cons; [eassumption | now apply IH].
Qed.

Lemma seq_fail_app_inv st s l1 l2 i :
  seq_fail st s (l1 ++ l2) i ->
  seq_fail st s l1 i \/
  exists rs k, seq_run st s l1 i rs k /\ seq_fail st s l2 k.
Proof.
  revert i. induction l1 as [| p l1 IH]; intros i H; simpl in H.
  - right. exists [], i. split; [constructor | assumption].
  - destruct H as (a & q & b & rs & j & E & Ha & Hq).
    destruct a as [| p' a]; simpl in E; injection E as -> E.
    + inversion Ha; subst. left. exists [], q, l1, [], j.
      split; [reflexivity | split; [constructor | assumption]].
    + inversion Ha as [| ? ? ? r i' rs' ? Hp Hrest]; subst.
      destruct (IH i') as [Hl | (rs1 & k & H1 & H2)].
      * exists a, q, b, rs', j. split; [assumption | split; assumption].
      * left. eapply seq_fail_cons; eassumption.
      * right. exists (r :: rs1), k. split; [| assumption].
        econstructor; eassumption.
Qed.

(** [chain_loop] against [seq_run] and [seq_fail]. *)
Lemma chain_Some_sound n st ps acc s i v j :
  chain_loop (run n st) ps acc s i = Ret (Some (v, j)) ->
  exists rs, seq_run st s ps i rs j /\ v = VList (acc ++ collect rs).
Proof.
  revert acc i. induction ps as [| p ps IH]; intros acc i H; simpl in H.
  - injection H as <- <-. exists []. split; [constructor |].
    now rewrite app_nil_r.
  - destruct (run n st p s i) as [[[r i'] |] | |] eqn:E; simpl in H;
      try discriminate.
    destruct (IH _ _ H) as (rs & Hrs & ->).
    exists (r :: rs). split.
    + econstructor; [| eassumption]. now apply (yields_intro n).
    + now rewrite add_result_contrib, collect_cons, app_assoc.
Qed.

Lemma chain_Some_complete st ps s i rs j :
  seq_run st s ps i rs j ->
  exists n, forall m acc,
      n <= m ->
      chain_loop (run m st) ps acc s i = Ret (Some (VList (acc ++ collect rs), j)).
Proof.
  induction 1 as [i | p ps i r i' rs j Hp _ [n IH]].
  - exists 0. intros m acc _. simpl. now rewrite app_nil_r.
  - apply yields_stable in Hp as [k Hk].
    exists (k + n). intros m acc Hm. simpl.
    rewrite Hk by lia. simpl. rewrite IH by lia.
    now rewrite add_result_contrib, collect_cons, app_assoc.
Qed.

Lemma chain_None_sound n st ps acc s i :
  chain_loop (run n st) ps acc s i = Ret None -> seq_fail st s ps i.
Proof.
  revert acc i. induction ps as [| p ps IH]; intros acc i H; simpl in H;
    [discriminate |].
  destruct (run n st p s i) as [[[r i'] |] | |] eqn:E; simpl in H;
    try discriminate.
  - eapply seq_fail_cons; [| eapply IH; eassumption].
    eapply (yields_intro n); [eassumption | discriminate].
  - exists [], p, ps, [], i.
    split; [reflexivity | split; [constructor |]].
    now apply (yields_intro n).
Qed.

Lemma chain_None_complete st ps s i :
  seq_fail st s ps i ->
  exists n, forall m acc,
      n <= m -> chain_loop (run m st) ps acc s i = Ret None.
Proof.
  intros (l1 & p & l2 & rs & j & -> & Hl1 & Hp).
  apply yields_stable in Hp as [k Hk].
  induction Hl1 as [i | q qs i r i' rs j Hq _ IH].
  - exists k. intros m acc Hm. simpl. now rewrite Hk.
  - destruct (IH Hk) as [n Hn].
    apply yields_stable in Hq as [kq Hkq].
    exists (kq + n). intros m acc Hm. simpl.
    rewrite Hkq by lia. simpl. apply Hn. lia.
Qed.

Lemma chainobj_Some st ps s i v j :
  yields st (ChainObj ps) s i (Ret (Some (v, j))) <->
  exists rs, seq_run st s ps i rs j /\ v = VList (collect rs).
Proof.
  split.
  - intros [_ [[| n] H]]; [discriminate |].
    rewrite run_chain in H. now apply chain_Some_sound in H.
  - intros (rs & Hrs & ->).
    apply chain_Some_complete in Hrs as [n Hn].
    apply (yields_intro (S n)); [| discriminate].
    rewrite run_chain. unfold chain_do_parse. now rewrite Hn.
Qed.

Lemma chainobj_None st ps s i :
  yields st (ChainObj ps) s i (Ret None) <-> seq_fail st s ps i.
Proof.
  split.
  - intros [_ [[| n] H]]; [discriminate |].
    rewrite run_chain in H. now apply chain_None_sound in H.
  - intros H. apply chain_None_complete in H as [n Hn].
    apply (yields_intro (S n)); [| discriminate].
    rewrite run_chain. unfold chain_do_parse. now rewrite Hn.
Qed.

Lemma seq_run_single st s p i rs j :
  seq_run st s [p] i rs j <->
  exists r, rs = [r] /\ yields st p s i (Ret (Some (r, j))).
Proof.
  split.
  - intros H. inversion H as [| ? ? ? r i' rs' ? Hp Hrest]; subst.
    inversion Hrest; subst. now exists r.
  - intros (r & -> & Hp). econstructor; [eassumption | constructor].
Qed.

Lemma seq_fail_cons_inv st s p ps i :
  seq_fail st s (p :: ps) i ->
  yields st p s i (Ret None) \/
  exists r i', yields st p s i (Ret (Some (r, i'))) /\ seq_fail st s ps i'.
Proof.
  intros (l1 & q & l2 & rs & j & E & Hl1 & Hq).
  destruct l1 as [| p' l1]; simpl in E; injection E as -> ->.
  - inversion Hl1; subst. now left.
  - inversion Hl1 as [| ? ? ? r i' rs' ? Hp Hrest]; subst.
    right. exists r, i'. split; [assumption |].
    exists l1, q, l2, rs', j. split; [reflexivity | split; assumption].
Qed.

Lemma children_Some st s p i k l :
  (exists r, yields st p s i (Ret (Some (r, k))) /\ contrib r = l) <->
  (exists rs, seq_run st s (chain_children p) i rs k /\ collect rs = l).
Proof.
  assert (Hplain :
    (exists r, yields st p s i (Ret (Some (r, k))) /\ contrib r = l) <->
    (exists rs, seq_run st s [p] i rs k /\ collect rs = l)).
  { split.
    - intros (r & Hr & <-). exists [r]. split.
      + apply seq_run_single. now exists r.
      + unfold collect. simpl. now rewrite app_nil_r.
    - intros (rs & Hrs & <-). apply seq_run_single in Hrs as (r & -> & Hr).
      exists r. split; [assumption |].
      unfold collect. simpl. now rewrite app_nil_r. }
  destruct p as [f cs t g | cs | cs | r0]; try exact Hplain.
  simpl. split.
  - intros (r & Hr & <-). apply chainobj_Some in Hr as (rs & Hrs & ->).
    exists rs. split; [assumption |]. symmetry. apply contrib_collect.
  - intros (rs & Hrs & <-). exists (VList (collect rs)). split.
    + apply chainobj_Some. now exists rs.
    + apply contrib_collect.
Qed.

Lemma children_None st s p i :
  yields st p s i (Ret None) <-> seq_fail st s (chain_children p) i.
Proof.
  assert (Hplain : yields st p s i (Ret None) <-> seq_fail st s [p] i).
  { split.
    - intros H. exists [], p, [], [], i.
      split; [reflexivity | split; [constructor | assumption]].
    - intros H. apply seq_fail_cons_inv in H as [H | (r & i' & _ & H)];
        [assumption |].
      destruct H as (l1 & q & l2 & rs & j & E & _). now destruct l1. }
  destruct p as [f cs t g | cs | cs | r0]; try exact Hplain.
  apply chainobj_None.
Qed.

Lemma flatten_chain_cons p ps :
  flatten_chain (p :: ps) = chain_children p ++ flatten_chain ps.
Proof. reflexivity. Qed.

(** Flattening does not change what a sequence does. *)
Lemma flatten_seq_run st s ps i l j :
  (exists rs, seq_run st s (flatten_chain ps) i rs j /\ collect rs = l) <->
  (exists rs, seq_run st s ps i rs j /\ collect rs = l).
Proof.
  revert i l. induction ps as [| p ps IH]; intros i l; [reflexivity |].
  rewrite flatten_chain_cons. split.
  - intros (rs & Hrs & <-).
    apply seq_run_app in Hrs as (rs1 & rs2 & k & H1 & H2 & ->).
    destruct (proj2 (children_Some st s p i k (collect rs1))) as (r & Hr & Er);
      [now exists rs1 |].
    destruct (proj1 (IH k (collect rs2))) as (rs2' & H2' & E2);
      [now exists rs2 |].
    exists (r :: rs2'). split; [econstructor; eassumption |].
    now rewrite collect_cons, collect_app, Er, E2.
  - intros (rs & Hrs & <-).
    inversion Hrs as [| ? ? ? r k rs2 ? Hp Hrest]; subst.
    destruct (proj1 (children_Some st s p i k (contrib r))) as (rs1 & H1 & E1);
      [now exists r |].
    destruct (proj2 (IH k (collect rs2))) as (rs2' & H2' & E2);
      [now exists rs2 |].
    exists (rs1 ++ rs2'). split.
    + apply seq_run_app. now exists rs1, rs2', k.
    + now rewrite collect_cons, collect_app, E1, E2.
Qed.

Lemma flatten_seq_fail st s ps i :
  seq_fail st s (flatten_chain ps) i <-> seq_fail st s ps i.
Proof.
  revert i. induction ps as [| p ps IH]; intros i; [reflexivity |].
  rewrite flatten_chain_cons. split.
  - intros H. apply seq_fail_app_inv in H as [H | (rs & k & H1 & H2)].
    + apply children_None in H. exists [], p, ps, [], i.
      split; [reflexivity | split; [constructor | assumption]].
    + destruct (proj2 (children_Some st s p i k (collect rs)))
        as (r & Hr & _); [now exists rs |].
      eapply seq_fail_cons; [eassumption | now apply IH].
  - intros H. apply seq_fail_cons_inv in H as [H | (r & i' & Hr & H)].
    + apply seq_fail_app_l. now apply children_None.
    + destruct (proj1 (children_Some st s p i i' (contrib r)))
        as (rs & Hrs & _); [now exists r |].
      eapply seq_fail_app_r; [eassumption | now apply IH].
Qed.

(** The outcome of [_ParserChain] in terms of the parsers given to the
    constructor (before flattening). *)
Lemma chain_Some st ps s i v j :
  yields st (_ParserChain ps) s i (Ret (Some (v, j))) <->
  exists rs, seq_run st s ps i rs j /\ v = VList (collect rs).
Proof.
  unfold _ParserChain. rewrite chainobj_Some. split.
  - intros (rs & Hrs & ->).
    destruct (proj1 (flatten_seq_run st s ps i (collect rs) j))
      as (rs' & Hrs' & E); [now exists rs |].
    exists rs'. now rewrite E.
  - intros (rs & Hrs & ->).
    destruct (proj2 (flatten_seq_run st s ps i (collect rs) j))
      as (rs' & Hrs' & E); [now exists rs |].
    exists rs'. now rewrite E.
Qed.

Lemma chain_None st ps s i :
  yields st (_ParserChain ps) s i (Ret None) <-> seq_fail st s ps i.
Proof.
  unfold _ParserChain. rewrite chainobj_None. apply flatten_seq_fail.
Qed.

(** ** Repetition *)

Lemma loop_left_within st p at_most s c j :
  loop_left st p at_most s c j -> within at_most c.
Proof. intros [[H _] | ->]; [assumption | simpl; lia]. Qed.

Lemma star_loop_sound f0 f st p at_most s rc acc i rc' acc' j :
  within at_most rc ->
  star_loop (run f0 st) f p at_most s rc acc i = Ret (rc', acc', j) ->
  exists rs,
    reps st p s i rs j /\ rc' = rc + List.length rs /\
    acc' = acc ++ collect rs /\ loop_left st p at_most s rc' j.
Proof.
  revert rc acc i. induction f as [| f IH]; intros rc acc i Hw H;
    [discriminate |].
  simpl in H.
  destruct (match at_most with None => true | Some m => rc <? m end) eqn:C.
  - destruct (run f0 st p s i) as [[[r i'] |] | |] eqn:E; simpl in H;
      try discriminate.
    + apply IH in H as (rs & Hrs & -> & -> & Hleft).
      * exists (r :: rs). split; [| split; [| split]].
        -- econstructor; [| eassumption].
           eapply (yields_intro f0); [eassumption | discriminate].
        -- simpl. lia.
        -- now rewrite add_result_contrib, collect_cons, app_assoc.
        -- assumption.
      * destruct at_most as [m |]; simpl in *; [| exact I].
        apply Nat.ltb_lt in C. lia.
    + injection H as <- <- <-. exists []. split; [constructor |].
      split; [simpl; lia |]. split; [now rewrite app_nil_r |].
      left. split; [assumption |].
      eapply (yields_intro f0); [eassumption | discriminate].
  - injection H as <- <- <-. exists []. split; [constructor |].
    split; [simpl; lia |]. split; [now rewrite app_nil_r |].
    right. destruct at_most as [m |]; [| discriminate].
    simpl in Hw. apply Nat.ltb_ge in C. f_equal. lia.
Qed.

Lemma star_loop_complete st p at_most s i rs j :
  reps st p s i rs j ->
  forall rc,
    loop_left st p at_most s (rc + List.length rs) j ->
    exists n, forall f f0 acc,
        n <= f -> n <= f0 ->
        star_loop (run f0 st) f p at_most s rc acc i =
        Ret (rc + List.length rs, acc ++ collect rs, j).
Proof.
  induction 1 as [i | i r i' rs j Hp _ IH]; intros rc Hleft.
  - simpl in Hleft. rewrite Nat.add_0_r in Hleft.
    destruct Hleft as [[_ Hfail] | ->].
    + apply yields_stable in Hfail as [k Hk].
      exists (S k). intros f f0 acc Hf Hf0.
      destruct f as [| f]; [lia |]. simpl.
      rewrite Nat.add_0_r, app_nil_r.
      destruct (match at_most with None => true | Some m => rc <? m end);
        [| reflexivity].
      now rewrite Hk by lia.
    + exists 1. intros f f0 acc Hf Hf0.
      destruct f as [| f]; [lia |]. simpl.
      now rewrite Nat.ltb_irrefl, Nat.add_0_r, app_nil_r.
  - assert (Hw := loop_left_within _ _ _ _ _ _ Hleft).
    simpl in Hleft, Hw.
    replace (rc + S (List.length rs)) with (S rc + List.length rs)
      in Hleft by lia.
    destruct (IH (S rc) Hleft) as [n Hn].
    apply yields_stable in Hp as [k Hk].
    exists (S (k + n)). intros f f0 acc Hf Hf0.
    destruct f as [| f]; [lia |]. simpl.
    assert (C : match at_most with None => true | Some m => rc <? m end = true).
    { destruct at_most as [m |]; [| reflexivity].
      simpl in Hw. apply Nat.ltb_lt. lia. }
    rewrite C, Hk by lia. simpl.
    rewrite Hn by lia.
    rewrite add_result_contrib, collect_cons, app_assoc.
    do 2 f_equal. f_equal. lia.
Qed.

(** The outcome of [star(p, at_least, at_most)]. *)
Lemma star_None st p at_least at_most s i :
  yields st (star p at_least at_most) s i (Ret None) <->
  exists rs j,
    reps st p s i rs j /\ loop_left st p at_most s (List.length rs) j /\
    List.length rs < at_least.
Proof.
  split.
  - intros [_ [[| n] H]]; [discriminate |].
    rewrite run_star in H. unfold star_parse_fn in H.
    destruct (star_loop (run n st) n p at_most s 0 [] i)
      as [[[rc acc] j] | |] eqn:E; simpl in H; try discriminate.
    apply star_loop_sound in E as (rs & Hrs & -> & -> & Hleft);
      [| destruct at_most; simpl; [lia | exact I]].
    simpl in *. destruct (Nat.ltb_spec (List.length rs) at_least);
      [| discriminate].
    now exists rs, j.
  - intros (rs & j & Hrs & Hleft & Hlt).
    destruct (star_loop_complete _ _ _ _ _ _ _ Hrs 0 Hleft) as [n Hn].
    apply (yields_intro (S n)); [| discriminate].
    rewrite run_star. unfold star_parse_fn.
    rewrite Hn by lia. simpl.
    now destruct (Nat.ltb_spec (List.length rs) at_least); [| lia].
Qed.

Lemma star_Some st p at_least at_most s i v j :
  yields st (star p at_least at_most) s i (Ret (Some (v, j))) <->
  exists rs,
    reps st p s i rs j /\ loop_left st p at_most s (List.length rs) j /\
    at_least <= List.length rs /\ v = VList (collect rs).
Proof.
  split.
  - intros [_ [[| n] H]]; [discriminate |].
    rewrite run_star in H. unfold star_parse_fn in H.
    destruct (star_loop (run n st) n p at_most s 0 [] i)
      as [[[rc acc] j'] | |] eqn:E; simpl in H; try discriminate.
    apply star_loop_sound in E as (rs & Hrs & -> & -> & Hleft);
      [| destruct at_most; simpl; [lia | exact I]].
    simpl in *. destruct (Nat.ltb_spec (List.length rs) at_least);
      [discriminate |].
    injection H as <- <-. now exists rs.
  - intros (rs & Hrs & Hleft & Hge & ->).
    destruct (star_loop_complete _ _ _ _ _ _ _ Hrs 0 Hleft) as [n Hn].
    apply (yields_intro (S n)); [| discriminate].
    rewrite run_star. unfold star_parse_fn.
    rewrite Hn by lia. simpl.
    now destruct (Nat.ltb_spec (List.length rs) at_least); [lia |].
Qed.

(** C4.  [star(p, at_least=k, at_most=m).run(s, i)] fails exactly when
    the repetitions achieved from [i] (consecutive successes of [p]
    until [p] fails or the upper bound is reached) are fewer than [k].
    The failure hands no position on: a following alternative is run at
    [i], as if the repetition had not been attempted.  With
    [at_least = 0] and [p] failing at [i] the repetition succeeds with
    the empty list at [i]. *)
Theorem star_at_least st (p : Parser) (k : nat) (m : option nat)
    (s : string) (i : nat) :
  (yields st (star p k m) s i (Ret None) <->
   exists rs j,
     reps st p s i rs j /\ loop_left st p m s (List.length rs) j /\
     List.length rs < k) /\
  (yields st (star p k m) s i (Ret None) ->
   forall q o, yields st q s i (Ret o) ->
               yields st (__or__ (star p k m) q) s i (Ret o)) /\
  (yields st p s i (Ret None) ->
   yields st (star p 0 m) s i (Ret (Some (VList [], i)))).
Proof.
  split; [apply star_None | split].
  - intros Hfail q [r |] Hq; unfold __or__.
    + apply first_match_Some. exists [star p k m], q, [].
      split; [reflexivity | split; [| assumption]].
      constructor; [assumption | constructor].
    + apply first_match_None.
      constructor; [assumption |]. constructor; [assumption | constructor].
  - intros Hfail. apply star_Some. exists [].
    split; [constructor |]. split; [| split; [simpl; lia | reflexivity]].
    left. split; [| assumption]. destruct m; simpl; [lia | exact I].
Qed.

Lemma star_at_least_witness :
  yields ∅ (star (chomp 1) 2 None) "a" 0 (Ret None) /\
  yields ∅ (__or__ (star (chomp 1) 2 None) (chomp 1)) "a" 0
         (Ret (Some (VStr "a", 1))).
Proof.
  assert (Hone : yields ∅ (chomp 1) "a" 0 (Ret (Some (VStr "a", 1))))
    by (split; [discriminate | exists 1; reflexivity]).
  assert (Hend : yields ∅ (chomp 1) "a" 1 (Ret None))
    by (split; [discriminate | exists 1; reflexivity]).
  destruct (star_at_least ∅ (chomp 1) 2 None "a" 0) as (Hiff & Hnext & _).
  assert (Hfail : yields ∅ (star (chomp 1) 2 None) "a" 0 (Ret None)).
  { apply Hiff. exists [VStr "a"], 1. split; [| split].
    - econstructor; [exact Hone | constructor].
    - left. split; [exact I | exact Hend].
    - simpl. lia. }
  split; [exact Hfail |].
  apply (Hnext Hfail (chomp 1) (Some (VStr "a", 1)) Hone).
Defined.

(** [star(chomp(1), at_least=2)] on ["a"]: one repetition only, so the
    repetition fails and the alternative starts at 0. *)
Example repeat_twice_on_one_item :
  run 3 ∅ (star (chomp 1) 2 None) "a" 0 = Ret None /\
  run 4 ∅ (__or__ (star (chomp 1) 2 None) (chomp 1)) "a" 0
  = Ret (Some (VStr "a", 1)).
Proof. split; reflexivity. Qed.

(** ** Termination of [star] *)

Lemma star_loop_diverges st p s i r :
  yields st p s i (Ret (Some (r, i))) ->
  forall f f0 rc acc,
    star_loop (run f0 st) f p None s rc acc i = OutOfFuel.
Proof.
  intros Hp f. induction f as [| f IH]; intros f0 rc acc; [reflexivity |].
  simpl. destruct (run f0 st p s i) as [pr | e |] eqn:E; [| | reflexivity].
  - assert (Ret pr = Ret (Some (r, i))) as [= ->].
    { eapply yields_det; [| exact Hp].
      eapply (yields_intro f0); [eassumption | discriminate]. }
    simpl. apply IH.
  - exfalso. assert (Raise e = Ret (Some (r, i))) by
      (eapply yields_det; [| exact Hp];
       eapply (yields_intro f0); [eassumption | discriminate]).
    discriminate.
Qed.

Lemma star_loop_bounded st p m s :
  (forall j, exists o, yields st p s j o) ->
  forall d rc acc i,
    m - rc <= d ->
    exists f, star_loop (run f st) f p (Some m) s rc acc i <> OutOfFuel.
Proof.
  intros Hterm d. induction d as [| d IH]; intros rc acc i Hd.
  - exists 1. simpl. destruct (Nat.ltb_spec rc m); [lia | discriminate].
  - destruct (Nat.ltb_spec rc m) as [Hlt | Hge].
    + destruct (Hterm i) as [o Ho].
      destruct (yields_stable _ _ _ _ _ Ho) as [n Hn].
      destruct Ho as [Ho _].
      destruct o as [[[r i'] |] | e |]; [| | | congruence].
      * destruct (IH (S rc) (_add_result acc r) i') as [f Hf]; [lia |].
        exists (S (n + f)). cbn [star_loop].
        destruct (Nat.ltb_spec rc m); [| lia].
        rewrite (run_mono n (S (n + f)) st p s i _ (Hn n (le_n n)))
          by (discriminate || lia).
        cbn [bind].
        destruct (star_loop_le (run f st) (run (S (n + f)) st)
                    (fun q t j => run_le f (S (n + f)) st q t j ltac:(lia))
                    f (n + f) p (Some m) s (S rc)
                    (_add_result acc r) i' ltac:(lia)) as [E | E];
          congruence.
      * exists (S n). cbn [star_loop].
        destruct (Nat.ltb_spec rc m); [| lia].
        rewrite (run_mono n (S n) st p s i _ (Hn n (le_n n)))
          by (discriminate || lia).
        discriminate.
      * exists (S n). cbn [star_loop].
        destruct (Nat.ltb_spec rc m); [| lia].
        rewrite (run_mono n (S n) st p s i _ (Hn n (le_n n)))
          by (discriminate || lia).
        discriminate.
    + exists 1. simpl. destruct (Nat.ltb_spec rc m); [lia | discriminate].
Qed.

Lemma reps_repeat st p s i r n :
  yields st p s i (Ret (Some (r, i))) -> reps st p s i (repeat r n) i.
Proof.
  intros H. induction n as [| n IH]; simpl; [constructor |].
  econstructor; eassumption.
Qed.

(** C9 (as the code has it).  When [p] succeeds at [i] without
    advancing, [star(p)] with the default unbounded [at_most] does not
    return at [i]: its loop is left only when [p] fails or a finite bound
    is reached.  With a finite [at_most] the run at [i] returns, and it
    returns at every position of [s] provided every run of [p] on [s]
    returns. *)
Theorem star_unbounded_not_total st (p : Parser) (k : nat) (s : string)
    (i : nat) (r : value)
    (Hstay : yields st p s i (Ret (Some (r, i)))) :
  diverges st (star p k None) s i /\
  (forall m, exists o, yields st (star p k (Some m)) s i o) /\
  ((forall j, exists o, yields st p s j o) ->
   forall m j, exists o, yields st (star p k (Some m)) s j o).
Proof.
  split; [| split].
  - intros [| f]; [reflexivity |].
    rewrite run_star. unfold star_parse_fn.
    now rewrite (star_loop_diverges st p s i r Hstay).
  - intros m.
    assert (Hreps := reps_repeat st p s i r m Hstay).
    assert (Hleft : loop_left st p (Some m) s (List.length (repeat r m)) i)
      by (right; now rewrite repeat_length).
    destruct (Nat.lt_ge_cases (List.length (repeat r m)) k) as [Hlt | Hge].
    + exists (Ret None). apply star_None. now exists (repeat r m), i.
    + exists (Ret (Some (VList (collect (repeat r m)), i))).
      apply star_Some. now exists (repeat r m).
  - intros Hterm m j.
    destruct (star_loop_bounded st p m s Hterm m 0 [] j) as [f Hf]; [lia |].
    exists (run (S f) st (star p k (Some m)) s j).
    apply (yields_intro (S f)); [reflexivity |].
    rewrite run_star. unfold star_parse_fn.
    destruct (star_loop (run f st) f p (Some m) s 0 [] j)
      as [[[rc acc] j'] | e |]; simpl; [| discriminate | congruence].
    destruct (rc <? k); discriminate.
Qed.

(** C9, refuted as stated: [p = regex("(?=a)") | star(chomp(0))]
    succeeds at 0 on ["ab"] without advancing, and [star(p, at_most=1)]
    does not return at 1, where the one run of [p] that the bound allows
    does not return. *)
Lemma bounded_star_may_not_return :
  yields ∅ stay_or_loop "ab" 0 (Ret (Some (VStr "", 0))) /\
  diverges ∅ (star stay_or_loop 0 (Some 1)) "ab" 1.
Proof.
  split; [split; [discriminate | exists 2; reflexivity] |].
  assert (Hinner : forall f, run f ∅ (star (chomp 0) 0 None) "ab" 1
                             = OutOfFuel).
  { intros [| f]; [reflexivity |].
    rewrite run_star. unfold star_parse_fn.
    rewrite (star_loop_diverges ∅ (chomp 0) "ab" 1 (VStr "")); [reflexivity |].
    split; [discriminate | exists 1; reflexivity]. }
  assert (Hp : forall f, run f ∅ stay_or_loop "ab" 1 = OutOfFuel).
  { intros [| f]; [reflexivity |].
    change stay_or_loop
      with (FirstMatchObj [regex (fun _ => lookahead_a) "(?=a)";
                           star (chomp 0) 0 None]).
    rewrite run_first. cbn [first_do_parse].
    destruct f as [| f]; [reflexivity |].
    replace (run (S f) ∅ (regex (fun _ => lookahead_a) "(?=a)") "ab" 1)
      with (@Ret parse_ret None) by reflexivity.
    cbn [bind]. now rewrite Hinner. }
  intros [| fuel]; [reflexivity |].
  rewrite run_star. unfold star_parse_fn.
  destruct fuel as [| fuel]; [reflexivity |].
  cbn [star_loop]. change (0 <? 1) with true. cbv iota.
  now rewrite Hp.
Qed.

Lemma star_unbounded_not_total_witness :
  diverges ∅ (star (chomp 0) 0 None) "a" 0 /\
  (forall m, exists o, yields ∅ (star (chomp 0) 0 (Some m)) "a" 0 o) /\
  ((forall j, exists o, yields ∅ (chomp 0) "a" j o) ->
   forall m j, exists o, yields ∅ (star (chomp 0) 0 (Some m)) "a" j o).
Proof.
  apply (star_unbounded_not_total ∅ (chomp 0) 0 "a" 0 (VStr "")).
  split; [discriminate | exists 1; reflexivity].
Defined.

(** ** Forward references *)

(** C5 (as the code has it).  [set_ref] makes no check: binding a
    placeholder that is already bound raises nothing, replaces its
    target, leaves the other placeholders as they are, and from then on
    the placeholder runs the new target. *)
Theorem set_ref_rebinds (st : gmap loc Parser) (r : loc) (p q : Parser)
    (Hbound : st !! r = Some p) :
  exists st',
    set_ref st r q = Ret st' /\
    st' !! r = Some q /\
    (forall r', r' <> r -> st' !! r' = st !! r') /\
    (forall fuel s i, run (S fuel) st' (RefObj r) s i = run fuel st' q s i).
Proof.
  exists (<[r := q]> st). split; [reflexivity |].
  split; [apply lookup_insert_eq |]. split.
  - intros r' Hne. now apply lookup_insert_ne.
  - intros fuel s i. rewrite <- (bind_ret_id (run fuel (<[r:=q]> st) q s i)).
    simpl. unfold run_body. simpl. unfold run_ref.
    now rewrite lookup_insert_eq.
Qed.

Lemma set_ref_rebinds_witness :
  exists st',
    set_ref (<[0 := chomp 1]> ∅) 0 (chomp 2) = Ret st' /\
    st' !! 0 = Some (chomp 2) /\
    (forall r', r' <> 0 -> st' !! r' = (<[0 := chomp 1]> ∅ : gmap loc Parser) !! r') /\
    (forall fuel s i,
        run (S fuel) st' (RefObj 0) s i = run fuel st' (chomp 2) s i).
Proof.
  apply (set_ref_rebinds (<[0 := chomp 1]> ∅) 0 (chomp 1) (chomp 2)).
  apply lookup_insert_eq.
Defined.

(** C5, refuted as stated: a second [set_ref] on a bound placeholder
    returns normally and the placeholder is rebound, both when called
    directly and when the second binding is the one [recursive] makes. *)
Lemma second_bind_is_silent :
  (exists st1 st2,
      set_ref ∅ 0 (chomp 1) = Ret st1 /\ st1 !! 0 = Some (chomp 1) /\
      set_ref st1 0 (chomp 2) = Ret st2 /\ st2 !! 0 = Some (chomp 2)) /\
  (exists h,
      recursive1 binding_recipe (mkRefState 0 ∅) = Ret (chomp 2, h) /\
      refs h !! 0 = Some (chomp 2)).
Proof.
  split.
  - exists (<[0 := chomp 1]> ∅), (<[0 := chomp 2]> (<[0 := chomp 1]> ∅)).
    split; [reflexivity |]. split; [apply lookup_insert_eq |].
    split; [reflexivity | apply lookup_insert_eq].
  - eexists. split; [reflexivity |]. apply lookup_insert_eq.
Qed.

(** The grammar of balanced parentheses built with [recursive] accepts
    ["(())"] and ["()"] and rejects ["(()"]. *)
Example balanced_parentheses :
  parse_parens 8 "(())" = Ret (VList []) /\
  parse_parens 8 "()" = Ret (VList []) /\
  parse_parens 8 "(()" = Ret VNone.
Proof. repeat split; vm_compute; reflexivity. Qed.

(** ** Constant conversion *)

Lemma run_conversions_app cs ds r :
  run_conversions (cs ++ ds) r =
  bind (run_conversions cs r)
       (fun o => match o with
                 | None => Ret None
                 | Some r' => run_conversions ds r'
                 end).
Proof.
  revert r. induction cs as [| c cs IH]; intros r; simpl; [reflexivity |].
  destruct (c r) as [r' | e |]; simpl; try reflexivity.
  destruct (is_SKIP r'); [apply IH |].
  destruct (is_None r'); [reflexivity | apply IH].
Qed.

Lemma conversions_copy_with p fns t g :
  _conversions (_copy_with p (mkKwargs (Some fns) t g)) = _conversions p ++ fns.
Proof.
  unfold _copy_with. destruct (_conversions p); reflexivity.
Qed.

(** C6 (as the code has it).  For every value [v] other than [None]
    (and other than the private skip marker), [p.const(v).run(s, i)]
    succeeds exactly when [p.run(s, i)] does, with result [v] (wrapped by
    [p]'s tag when one is set) at the same end position; it fails,
    raises or does not return exactly as [p.run(s, i)] does.
    [p.const(None)] never succeeds: it fails wherever [p] succeeds, and
    otherwise does what [p] does. *)
Theorem const_replaces_result fuel st (p : Parser) (s : string) (i : nat) :
  (forall v,
      v <> VNone -> v <> VSkip ->
      run fuel st (const p v) s i =
      match run fuel st p s i with
      | Ret (Some (_, e)) => Ret (Some (tagged_with (_tag p) v, e))
      | o => o
      end) /\
  run fuel st (const p VNone) s i =
  match run fuel st p s i with
  | Ret (Some _) => Ret None
  | o => o
  end /\
  (forall r e, run fuel st (const p VNone) s i <> Ret (Some (r, e))).
Proof.
  assert (Hrun : forall v,
    run fuel st (const p v) s i =
    match run fuel st p s i with
    | Ret (Some (_, e)) =>
        if is_SKIP v then Ret (Some (tagged_with (_tag p) VNone, e))
        else if is_None v then Ret None
        else Ret (Some (tagged_with (_tag p) v, e))
    | o => o
    end).
  { intros v. destruct fuel as [| fuel]; [reflexivity |].
    simpl. unfold run_body, const.
    rewrite conversions_copy_with.
    change (_trim_ws (_copy_with p _)) with (_trim_ws p).
    change (_parse_fn (_copy_with p _)) with (_parse_fn p).
    change (_tag (_copy_with p _)) with (_tag p).
    destruct (call_parse_fn _ _ _ _ _ _) as [[[r j] |] | e |]; simpl;
      try reflexivity.
    rewrite run_conversions_app.
    destruct (run_conversions (_conversions p) r) as [[r' |] | e |]; simpl;
      try reflexivity.
    destruct (is_SKIP v); [reflexivity |].
    destruct (is_None v); reflexivity. }
  split; [| split].
  - intros v HnotNone HnotSkip. rewrite Hrun.
    destruct (run fuel st p s i) as [[[r e] |] | x |]; try reflexivity.
    destruct v; try contradiction; reflexivity.
  - rewrite Hrun. now destruct (run fuel st p s i) as [[[r e] |] | x |].
  - intros r e. rewrite Hrun.
    destruct (run fuel st p s i) as [[[r' e'] |] | x |]; simpl; congruence.
Qed.

Lemma const_replaces_result_witness :
  run 2 ∅ (const (chomp 1) (VInt 7)) "a" 0 =
  match run 2 ∅ (chomp 1) "a" 0 with
  | Ret (Some (_, e)) => Ret (Some (tagged_with (_tag (chomp 1)) (VInt 7), e))
  | o => o
  end.
Proof.
  apply (proj1 (const_replaces_result 2 ∅ (chomp 1) "a" 0) (VInt 7));
    discriminate.
Defined.

(** C6, refuted as stated: [chomp(1)] succeeds on ["a"], and
    [chomp(1).const(None)] fails there. *)
Lemma const_None_fails :
  yields ∅ (chomp 1) "a" 0 (Ret (Some (VStr "a", 1))) /\
  yields ∅ (const (chomp 1) VNone) "a" 0 (Ret None).
Proof.
  split; (split; [discriminate | exists 1; reflexivity]).
Qed.

(** ** Pipeline operations and object identity *)

Lemma parse_fn_copy_with p kw : _parse_fn (_copy_with p kw) = _parse_fn p.
Proof. reflexivity. Qed.

Lemma apply_parse_fn o p : _parse_fn (Objects.apply o p) = _parse_fn p.
Proof.
  destruct o as [fns | fns | v | | enable | t]; simpl.
  - destruct fns; reflexivity.
  - unfold zipconv. now destruct (forallb _ fns).
  - reflexivity.
  - reflexivity.
  - unfold trim_ws. now destruct (Bool.eqb _ _).
  - unfold tag. now destruct (py_eq _ _).
Qed.

Lemma apply_returns_self o p :
  Objects.returns_self o p = true -> Objects.apply o p = p.
Proof.
  destruct o as [fns | fns | v | | enable | t]; simpl; try discriminate.
  - destruct fns; [reflexivity | discriminate].
  - unfold zipconv. now intros ->.
  - unfold trim_ws. now intros ->.
  - unfold tag. now intros ->.
Qed.

Lemma call_outcome o (h : list Parser) self p :
  h !! self = Some p ->
  Objects.call o h self =
  if Objects.returns_self o p then Some (h, self)
  else Some (Objects.new h (Objects.apply o p)).
Proof.
  intros Hself. unfold Objects.call. rewrite Hself.
  destruct o as [fns | fns | v | | enable | t]; simpl.
  - unfold Objects.m_conv, Objects.m_copy_with. rewrite Hself.
    destruct fns; reflexivity.
  - unfold Objects.m_zipconv, Objects.m_copy_with, zipconv. rewrite Hself.
    now destruct (forallb _ fns).
  - unfold Objects.m_const, Objects.m_copy_with. now rewrite Hself.
  - unfold Objects.m_skip, Objects.m_copy_with. now rewrite Hself.
  - unfold Objects.m_trim_ws, Objects.m_copy_with, trim_ws. rewrite Hself.
    now destruct (Bool.eqb _ _).
  - unfold Objects.m_tag, Objects.m_copy_with, tag. rewrite Hself.
    now destruct (py_eq _ _).
Qed.

(** C7 (as the code has it).  Each pipeline operation (conv, zipconv,
    const, skip, trim_ws, tag) returns a parser that shares [p]'s
    primitive parse function and never mutates [p]: every object that
    existed before the call, [p] among them, has the fields it had and
    runs as it did.  The parser returned is a new object, except when
    the operation changes nothing (conv without functions, zipconv with
    no-op slots only, trim_ws with the flag [p] has, tag with a tag equal
    to [p]'s): then it is [p] itself. *)
Theorem pipeline_op_keeps_self (o : Objects.op) (h : list Parser)
    (self : nat) (p : Parser) (Hself : h !! self = Some p) :
  exists h' r,
    Objects.call o h self = Some (h', r) /\
    h' !! r = Some (Objects.apply o p) /\
    _parse_fn (Objects.apply o p) = _parse_fn p /\
    (forall a q, h !! a = Some q -> h' !! a = Some q) /\
    (forall fuel st a s i,
        a < List.length h ->
        Objects.m_run fuel st h' a s i = Objects.m_run fuel st h a s i) /\
    (if Objects.returns_self o p
     then r = self /\ h' = h
     else Objects.fresh h r /\ h' = h ++ [Objects.apply o p]).
Proof.
  rewrite (call_outcome o h self p Hself).
  destruct (Objects.returns_self o p) eqn:G.
  - exists h, self. split; [reflexivity |].
    rewrite (apply_returns_self o p G).
    split; [assumption |]. split; [reflexivity |].
    split; [auto |]. split; [reflexivity | now split].
  - exists (h ++ [Objects.apply o p]), (List.length h).
    split; [reflexivity |].
    split; [now rewrite lookup_app_r, Nat.sub_diag by lia |].
    split; [apply apply_parse_fn |].
    split; [intros a q Ha; now apply lookup_app_l_Some |].
    split.
    + intros fuel st a s i Ha. unfold Objects.m_run.
      now rewrite lookup_app_l by assumption.
    + split; [unfold Objects.fresh; lia | reflexivity].
Qed.

Lemma pipeline_op_keeps_self_witness :
  exists h' r,
    Objects.call (Objects.Tag (VStr "n")) [chomp 1] 0 = Some (h', r) /\
    h' !! r = Some (Objects.apply (Objects.Tag (VStr "n")) (chomp 1)) /\
    _parse_fn (Objects.apply (Objects.Tag (VStr "n")) (chomp 1))
    = _parse_fn (chomp 1) /\
    (forall a q, [chomp 1] !! a = Some q -> h' !! a = Some q) /\
    (forall fuel st a s i,
        a < List.length [chomp 1] ->
        Objects.m_run fuel st h' a s i
        = Objects.m_run fuel st [chomp 1] a s i) /\
    (if Objects.returns_self (Objects.Tag (VStr "n")) (chomp 1)
     then r = 0 /\ h' = [chomp 1]
     else Objects.fresh [chomp 1] r
          /\ h' = [chomp 1] ++ [Objects.apply (Objects.Tag (VStr "n")) (chomp 1)]).
Proof.
  apply (pipeline_op_keeps_self (Objects.Tag (VStr "n")) [chomp 1] 0 (chomp 1)).
  reflexivity.
Defined.

(** C7, refuted as stated: [trim_ws(False)] on a parser that does not
    trim, [tag(None)] on an untagged parser and [conv()] without
    functions return the object they were called on, and make no new
    one. *)
Lemma pipeline_op_may_return_self :
  Objects.call (Objects.TrimWs false) [chomp 1] 0 = Some ([chomp 1], 0) /\
  Objects.call (Objects.Tag VNone) [chomp 1] 0 = Some ([chomp 1], 0) /\
  Objects.call (Objects.Conv_ []) [chomp 1] 0 = Some ([chomp 1], 0) /\
  ~ Objects.fresh [chomp 1] 0.
Proof.
  repeat split; try reflexivity. unfold Objects.fresh. simpl. lia.
Qed.

(** ** Regular expressions with named groups *)

(** C10.  When the match has at least one named group, the result of
    [regex] is the mapping from group names to captured text and nothing
    else: the unnamed groups and the whole match do not enter it, however
    many unnamed groups there are. *)
Theorem regex_named_groups_win (patt : Pattern) (s : string) (i : nat)
    (m : Match)
    (Hmatch : p_match patt s i = Some m)
    (Hnamed : m_groupdict m <> []) :
  regex_parse_fn patt s i = Ret (Some (groupdict_value m, m_end m)) /\
  (forall re_compile z fuel st i0,
      re_compile z = patt -> ws_end s i0 = i ->
      run (S fuel) st (regex re_compile z) s i0
      = Ret (Some (groupdict_value m, ws_end s (m_end m)))).
Proof.
  assert (H : regex_parse_fn patt s i
              = Ret (Some (groupdict_value m, m_end m))).
  { unfold regex_parse_fn, groupdict_value. rewrite Hmatch.
    destruct (m_groupdict m); [contradiction | reflexivity]. }
  split; [exact H |].
  intros re_compile z fuel st i0 <- Hi. simpl. unfold run_body. simpl.
  rewrite Hi, H. reflexivity.
Qed.

Lemma regex_named_groups_win_witness :
  regex_parse_fn named_and_unnamed "abc" 0
  = Ret (Some (VDict [("x", VStr "a")], 3)) /\
  (forall re_compile z fuel st i0,
      re_compile z = named_and_unnamed -> ws_end "abc" i0 = 0 ->
      run (S fuel) st (regex re_compile z) "abc" i0
      = Ret (Some (VDict [("x", VStr "a")], 3))).
Proof.
  apply (regex_named_groups_win named_and_unnamed "abc" 0
           (mkMatch 3 "abc" [Some "a"; Some "b"; Some "c"] [("x", Some "a")])).
  - reflexivity.
  - discriminate.
Defined.

(** ** Separated lists *)

(** A skipped parser hands out [None] whenever it succeeds. *)
Lemma skip_result st q s i r j :
  yields st (skip q) s i (Ret (Some (r, j))) -> r = VNone.
Proof.
  intros [_ [[| n] H]]; [discriminate |].
  simpl in H. unfold run_body, skip in H.
  rewrite conversions_copy_with in H.
  change (_trim_ws (_copy_with q _)) with (_trim_ws q) in H.
  change (_parse_fn (_copy_with q _)) with (_parse_fn q) in H.
  change (_tag (_copy_with q _)) with VNone in H.
  destruct (call_parse_fn _ _ _ _ _ _) as [[[r0 j0] |] | e |]; simpl in H;
    try discriminate.
  rewrite run_conversions_app in H.
  destruct (run_conversions (_conversions q) r0) as [[r' |] | e |];
    simpl in H; try discriminate.
  now injection H as <- _.
Qed.

Lemma sep_item st p q s i r j :
  yields st (__add__ (skip q) p) s i (Ret (Some (r, j))) ->
  exists rp, result_of st p s rp /\ r = VList (contrib rp).
Proof.
  intros H. apply chain_Some in H as (rs & Hrs & ->).
  inversion Hrs as [| ? ? ? r1 i1 rs1 ? Hsep Hrest]; subst.
  inversion Hrest as [| ? ? ? r2 i2 rs2 ? Hp Hnil]; subst.
  inversion Hnil; subst.
  apply skip_result in Hsep as ->.
  exists r2. split; [now exists i1, j |].
  unfold collect. simpl. now rewrite app_nil_r.
Qed.

Lemma sep_items st p q s i rs j :
  reps st (__add__ (skip q) p) s i rs j ->
  exists items,
    collect rs = collect items /\ Forall (result_of st p s) items.
Proof.
  induction 1 as [i | i r i' rs j Hr _ (items & E & Hitems)].
  - exists []. split; [reflexivity | constructor].
  - apply sep_item in Hr as (rp & Hrp & ->).
    exists (rp :: items). split; [| now constructor].
    rewrite !collect_cons, E. f_equal. apply contrib_not_None.
Qed.

(** C8.  [seplist(p, sep)] needs at least one item: it fails where [p]
    fails.  Its result is a list made of results of [p] only, at least
    one of them: the separator, once skipped, always yields [None], which
    is never put in a list.  And
    [seplist(regex("[0-9]+"), ",").parse("1,2,3")] returns
    [["1", "2", "3"]]. *)
Theorem seplist_items_only st (p : Parser) (sep : Parser + string)
    (s : string) (i : nat) :
  (yields st p s i (Ret None) ->
   yields st (seplist p sep) s i (Ret None)) /\
  (forall v j,
      yields st (seplist p sep) s i (Ret (Some (v, j))) ->
      exists items,
        items <> [] /\ v = VList (collect items) /\
        Forall (result_of st p s) items) /\
  (forall i' r j,
      yields st (skip (sep_parser sep)) s i' (Ret (Some (r, j))) ->
      r = VNone /\ forall acc, _add_result acc r = acc) /\
  (forall re_compile,
      re_compile "[0-9]+" = digits_pattern ->
      exists fuel,
        parse fuel st (seplist (regex re_compile "[0-9]+") (inr ",")) "1,2,3"
        = Ret (VList [VStr "1"; VStr "2"; VStr "3"])).
Proof.
  split; [| split; [| split]].
  - intros Hfail. unfold seplist, __add__ at 1. apply chain_None.
    exists [], p, [star (__add__ (skip (sep_parser sep)) p) 0 None], [], i.
    split; [reflexivity | split; [constructor | assumption]].
  - intros v j H. unfold seplist, __add__ at 1 in H.
    apply chain_Some in H as (rs & Hrs & ->).
    inversion Hrs as [| ? ? ? r0 i1 rs1 ? Hp Hrest]; subst.
    inversion Hrest as [| ? ? ? r1 i2 rs2 ? Hstar Hnil]; subst.
    inversion Hnil; subst.
    apply star_Some in Hstar as (rs' & Hreps & _ & _ & ->).
    apply sep_items in Hreps as (items & E & Hitems).
    exists (r0 :: items). split; [discriminate |]. split.
    + rewrite !collect_cons, contrib_collect, E.
      change (collect []) with (@nil value). now rewrite app_nil_r.
    + constructor; [now exists i, i1 | assumption].
  - intros i' r j H. apply skip_result in H as ->. now split.
  - intros re_compile Hre. exists 6. unfold regex. rewrite Hre.
    reflexivity.
Qed.

Lemma seplist_items_only_witness :
  exists fuel,
    parse fuel ∅ (seplist (regex (fun _ => digits_pattern) "[0-9]+") (inr ","))
          "1,2,3"
    = Ret (VList [VStr "1"; VStr "2"; VStr "3"]).
Proof.
  apply (seplist_items_only ∅ (chomp 1) (inr ",") "" 0).
  reflexivity.
Defined.


(** * Further properties of the combinators *)

(** ** Strings, whitespace and positions *)

Lemma ws_end_from_bounds s skip pos :
  pos <= ws_end_from s skip pos <= pos + String.length s.
Proof.
  revert skip pos. induction s as [| c s IH]; intros skip pos; simpl; [lia |].
  destruct skip as [| k].
  - destruct (is_space c); [| lia]. specialize (IH 0 (S pos)). lia.
  - specialize (IH k (S pos)). lia.
Qed.

Lemma ws_end_from_skip s skip pos :
  skip <= String.length s -> pos + skip <= ws_end_from s skip pos.
Proof.
  revert skip pos. induction s as [| c s IH]; intros skip pos Hle; simpl in *.
  - lia.
  - destruct skip as [| k].
    + pose proof (ws_end_from_bounds (String c s) 0 pos) as H. simpl in H. lia.
    + specialize (IH k (S pos)). lia.
Qed.

Lemma ws_end_from_again s skip pos :
  ws_end_from s (ws_end_from s skip pos - pos) pos = ws_end_from s skip pos.
Proof.
  revert skip pos. induction s as [| c s IH]; intros skip pos.
  - reflexivity.
  - assert (Hnext : forall k,
      ws_end_from (String c s) (ws_end_from s k (S pos) - pos) pos
      = ws_end_from s k (S pos)).
    { intros k. pose proof (ws_end_from_bounds s k (S pos)) as Hb.
      replace (ws_end_from s k (S pos) - pos)
        with (S (ws_end_from s k (S pos) - S pos)) by lia.
      simpl. apply IH. }
    destruct skip as [| k].
    + destruct (is_space c) eqn:E.
      * replace (ws_end_from (String c s) 0 pos)
          with (ws_end_from s 0 (S pos)) by (simpl; now rewrite E).
        apply Hnext.
      * replace (ws_end_from (String c s) 0 pos) with pos
          by (simpl; now rewrite E).
        rewrite Nat.sub_diag. simpl. now rewrite E.
    + change (ws_end_from (String c s) (S k) pos)
        with (ws_end_from s k (S pos)).
      apply Hnext.
Qed.

Lemma ws_end_le_length s i : ws_end s i <= String.length s.
Proof. unfold ws_end. pose proof (ws_end_from_bounds s i 0). lia. Qed.

Lemma ws_end_ge s i : i <= String.length s -> i <= ws_end s i.
Proof. unfold ws_end. intros H. pose proof (ws_end_from_skip s i 0 H). lia. Qed.

Lemma ws_end_idempotent s i : ws_end s (ws_end s i) = ws_end s i.
Proof.
  unfold ws_end. pose proof (ws_end_from_again s i 0) as H.
  now rewrite Nat.sub_0_r in H.
Qed.

Lemma length_drop_str n s :
  String.length (drop_str n s) = String.length s - n.
Proof.
  revert s. induction n as [| n IH]; intros [| c s]; simpl; auto.
Qed.





Lemma prefix_app z t :
  String.prefix z t = true <-> exists post, t = (z ++ post)%string.
Proof.
  revert t. induction z as [| c z IH]; intros t; simpl.
  - split; [intros _; now exists t | intros _; now destruct t].
  - destruct t as [| d t].
    + split; [discriminate | intros [post H]; discriminate].
    + unfold prefix; fold prefix.
      destruct (ascii_dec c d) as [-> | Hne].
      * rewrite IH. split; intros [post H]; exists post.
        -- change (String d t = String d (z ++ post)%string). now rewrite H.
        -- change (String d t = String d (z ++ post)%string) in H.
           congruence.
      * split; [discriminate |]. intros [post H].
        change (String d t = String c (z ++ post)%string) in H. congruence.
Qed.

(** X1.  A parser that trims whitespace cannot tell where in a run of
    leading whitespace it is started: running it at [i] and at the end
    of the whitespace that begins at [i] give the same outcome.  The end
    position it returns lies inside the input and has no whitespace at
    it. *)
Theorem trim_skips_whitespace fuel st (p : Parser) (s : string) (i : nat)
    (Htrim : _trim_ws p = true) :
  run fuel st p s i = run fuel st p s (ws_end s i) /\
  (forall r j,
      run fuel st p s i = Ret (Some (r, j)) ->
      ws_end s j = j /\ j <= String.length s).
Proof.
  destruct fuel as [| fuel]; [split; [reflexivity | discriminate] |].
  simpl. unfold run_body. rewrite Htrim, ws_end_idempotent.
  split; [reflexivity |]. intros r j H.
  destruct (call_parse_fn _ _ _ _ _ _) as [[[r0 j0] |] | e |]; simpl in H;
    try discriminate.
  destruct (run_conversions _ _) as [[r' |] | e |]; simpl in H;
    try discriminate.
  injection H as _ <-. split; [apply ws_end_idempotent | apply ws_end_le_length].
Qed.

Lemma trim_skips_whitespace_witness :
  run 2 ∅ (ex ",") "  , x" 0 = run 2 ∅ (ex ",") "  , x" (ws_end "  , x" 0) /\
  (forall r j,
      run 2 ∅ (ex ",") "  , x" 0 = Ret (Some (r, j)) ->
      ws_end "  , x" j = j /\ j <= String.length "  , x").
Proof.
  apply (trim_skips_whitespace 2 ∅ (ex ",") "  , x" 0). reflexivity.
Defined.



(** X3.  [ex(z)] looks for [z] at the first position at or after [i]
    that is not whitespace: when [z] stands there it succeeds with result
    [None] and ends after [z] and the whitespace that follows it;
    otherwise it fails. *)
Theorem ex_matches_literal fuel st (z s : string) (i : nat) :
  ((exists post, drop_str (ws_end s i) s = (z ++ post)%string) ->
   run (S fuel) st (ex z) s i
   = Ret (Some (VNone, ws_end s (ws_end s i + String.length z)))) /\
  ((~ exists post, drop_str (ws_end s i) s = (z ++ post)%string) ->
   run (S fuel) st (ex z) s i = Ret None).
Proof.
  assert (Hstart : startswith s z (ws_end s i) = true <->
                   exists post, drop_str (ws_end s i) s = (z ++ post)%string).
  { unfold startswith. pose proof (ws_end_le_length s i) as Hle.
    destruct (Nat.ltb_spec (String.length s) (ws_end s i)); [lia |].
    apply prefix_app. }
  split; intros H; simpl; unfold run_body; simpl; unfold ex_parse_fn.
  - apply Hstart in H. now rewrite H.
  - destruct (startswith s z (ws_end s i)) eqn:E; [| reflexivity].
    exfalso. apply H, Hstart. reflexivity.
Qed.

Lemma ex_matches_literal_witness :
  run 1 ∅ (ex "->") " -> b" 0
  = Ret (Some (VNone, ws_end " -> b" (ws_end " -> b" 0 + String.length "->"))).
Proof.
  apply (proj1 (ex_matches_literal 0 ∅ "->" " -> b" 0)).
  exists " b". reflexivity.
Defined.

(** ** The pipeline operations at run time *)

Lemma copy_with_conversions p fns :
  _copy_with p (mkKwargs (Some fns) None None)
  = PlainParser (_parse_fn p) (_conversions p ++ fns) (_trim_ws p) (_tag p).
Proof.
  unfold _copy_with, Parser_init. simpl. now destruct (_conversions p).
Qed.

(** Running [p] with [fns] appended to its conversions, for an untagged
    [p]: the conversions [fns] are run on the result of [p]. *)
Lemma run_more_conversions fuel st p fns s i :
  _tag p = VNone ->
  run fuel st (PlainParser (_parse_fn p) (_conversions p ++ fns)
                           (_trim_ws p) (_tag p)) s i =
  match run fuel st p s i with
  | Ret (Some (r, e)) =>
      match run_conversions fns r with
      | Ret (Some r') => Ret (Some (r', e))
      | Ret None => Ret None
      | Raise x => Raise x
      | OutOfFuel => OutOfFuel
      end
  | o => o
  end.
Proof.
  intros Htag. destruct fuel as [| fuel]; [reflexivity |].
  simpl. unfold run_body. simpl. rewrite Htag. simpl.
  destruct (call_parse_fn _ _ _ _ _ _) as [[[r j] |] | e |]; simpl;
    try reflexivity.
  rewrite run_conversions_app.
  destruct (run_conversions (_conversions p) r) as [[r' |] | e |]; simpl;
    reflexivity.
Qed.

(** X4.  [p.skip()] succeeds exactly when [p] does and ends where [p]
    ends; its result is [None] and carries no tag, whatever [p]'s result
    and tag are.  Failures, exceptions and non-termination of [p] are
    passed on unchanged. *)
Theorem skip_drops_result fuel st (p : Parser) (s : string) (i : nat) :
  run fuel st (skip p) s i =
  match run fuel st p s i with
  | Ret (Some (_, e)) => Ret (Some (VNone, e))
  | o => o
  end.
Proof.
  destruct fuel as [| fuel]; [reflexivity |].
  simpl. unfold run_body, skip.
  rewrite conversions_copy_with.
  change (_trim_ws (_copy_with p _)) with (_trim_ws p).
  change (_parse_fn (_copy_with p _)) with (_parse_fn p).
  change (_tag (_copy_with p _)) with VNone.
  destruct (call_parse_fn _ _ _ _ _ _) as [[[r j] |] | e |]; simpl;
    try reflexivity.
  rewrite run_conversions_app.
  destruct (run_conversions (_conversions p) r) as [[r' |] | e |]; simpl;
    reflexivity.
Qed.

(** X5.  Attaching conversions in two steps is attaching them in one:
    [p.conv(fs...).conv(gs...)] is the parser [p.conv(fs..., gs...)],
    with the conversions of [p] first, then [fs], then [gs]. *)
Theorem conv_conv (p : Parser) (fs gs : list Conv) :
  conv (conv p fs) gs = conv p (fs ++ gs) /\
  _conversions (conv (conv p fs) gs) = _conversions p ++ fs ++ gs /\
  (forall fuel st s i,
      run fuel st (conv (conv p fs) gs) s i
      = run fuel st (conv p (fs ++ gs)) s i).
Proof.
  assert (E : conv (conv p fs) gs = conv p (fs ++ gs)).
  { destruct fs as [| f fs]; [reflexivity |].
    destruct gs as [| g gs]; [simpl; now rewrite app_nil_r |].
    unfold conv at 2. unfold conv at 1. simpl app.
    unfold conv. rewrite !copy_with_conversions. simpl.
    now rewrite <- app_assoc. }
  split; [exact E |]. split; [| intros; now rewrite E].
  rewrite E. destruct (fs ++ gs) eqn:Efg.
  - simpl. now rewrite app_nil_r.
  - unfold conv. rewrite copy_with_conversions. reflexivity.
Qed.

(** X6.  For an untagged parser [p], [p.conv(fns...)] runs [p] and then
    the conversions on [p]'s result, keeping [p]'s end position: the
    converted result is returned; a conversion that returns [None] makes
    the run fail; an exception of a conversion is raised by the run. *)
Theorem conv_post_processes fuel st (p : Parser) (fns : list Conv)
    (s : string) (i : nat) (Huntagged : _tag p = VNone) :
  run fuel st (conv p fns) s i =
  match run fuel st p s i with
  | Ret (Some (r, e)) =>
      match run_conversions fns r with
      | Ret (Some r') => Ret (Some (r', e))
      | Ret None => Ret None
      | Raise x => Raise x
      | OutOfFuel => OutOfFuel
      end
  | o => o
  end.
Proof.
  destruct fns as [| f fns].
  - simpl. now destruct (run fuel st p s i) as [[[r e] |] | x |].
  - unfold conv. rewrite copy_with_conversions.
    now apply run_more_conversions.
Qed.

Lemma conv_post_processes_witness :
  run 2 ∅ (conv (chomp 1) [fun _ => Ret VNone]) "a" 0 =
  match run 2 ∅ (chomp 1) "a" 0 with
  | Ret (Some (r, e)) =>
      match run_conversions [fun _ => Ret VNone] r with
      | Ret (Some r') => Ret (Some (r', e))
      | Ret None => Ret None
      | Raise x => Raise x
      | OutOfFuel => OutOfFuel
      end
  | o => o
  end.
Proof.
  apply (conv_post_processes 2 ∅ (chomp 1) [fun _ => Ret VNone] "a" 0).
  reflexivity.
Defined.

Lemma copy_with_tag p t :
  _copy_with p (mkKwargs None None (Some t))
  = PlainParser (_parse_fn p) (_conversions p) (_trim_ws p) t.
Proof.
  unfold _copy_with, Parser_init. simpl.
  destruct (_conversions p); simpl; [reflexivity | now rewrite app_nil_r].
Qed.

(** X7.  For an untagged parser [p], [p.tag(t)] succeeds, fails, raises
    and ends exactly as [p] does, and on success hands out the pair
    [(t, result)] ([p]'s own result when [t] is [None]). *)
Theorem tag_wraps_result fuel st (p : Parser) (t : value) (s : string)
    (i : nat) (Huntagged : _tag p = VNone) :
  run fuel st (tag p t) s i =
  match run fuel st p s i with
  | Ret (Some (r, e)) => Ret (Some (tagged_with t r, e))
  | o => o
  end.
Proof.
  unfold tag. rewrite Huntagged.
  destruct (is_None t) eqn:Et.
  - destruct t; try discriminate. simpl.
    now destruct (run fuel st p s i) as [[[r e] |] | x |].
  - replace (py_eq VNone t) with false by (now destruct t).
    rewrite copy_with_tag.
    destruct fuel as [| fuel]; [reflexivity |].
    simpl. unfold run_body. simpl. rewrite Huntagged. simpl.
    destruct (call_parse_fn _ _ _ _ _ _) as [[[r j] |] | e |]; simpl;
      try reflexivity.
    destruct (run_conversions (_conversions p) r) as [[r' |] | e |]; simpl;
      reflexivity.
Qed.

Lemma tag_wraps_result_witness :
  run 2 ∅ (tag (chomp 1) (VStr "c")) "a" 0 =
  match run 2 ∅ (chomp 1) "a" 0 with
  | Ret (Some (r, e)) => Ret (Some (tagged_with (VStr "c") r, e))
  | o => o
  end.
Proof.
  apply (tag_wraps_result 2 ∅ (chomp 1) (VStr "c") "a" 0). reflexivity.
Defined.

(** ** Element-wise conversion *)

Lemma zip_apply_spec fns (vs vs' : list value) :
  zip_apply fns vs = Ret vs' ->
  List.length vs' = List.length vs /\
  forall k x,
    vs !! k = Some x ->
    match fns !! k with
    | Some (Some f) => exists y, f x = Ret y /\ vs' !! k = Some y
    | _ => vs' !! k = Some x
    end.
Proof.
  revert vs vs'. induction fns as [| fn fns IH]; intros [| x xs] vs' H;
    simpl in H.
  - injection H as <-. split; [reflexivity | intros k y Hk; discriminate].
  - injection H as <-. split; [reflexivity | intros k y Hk; exact Hk].
  - injection H as <-. split; [reflexivity | intros k y Hk; discriminate].
  - assert (Hx : exists x',
               match fn with Some f => f x | None => Ret x end = Ret x' /\
               exists xs', zip_apply fns xs = Ret xs' /\ vs' = x' :: xs').
    { destruct (match fn with Some f => f x | None => Ret x end)
        as [x' | e |]; simpl in H; try discriminate.
      destruct (zip_apply fns xs) as [xs' | e |]; simpl in H;
        try discriminate.
      injection H as <-. exists x'. split; [reflexivity |]. now exists xs'. }
    destruct Hx as (x' & Hx' & xs' & Hxs' & ->).
    destruct (IH _ _ Hxs') as [Hlen Hel].
    split; [simpl; now rewrite Hlen |].
    intros [| k] y Hk; simpl in Hk.
    + injection Hk as <-. simpl. destruct fn as [f |].
      * now exists x'.
      * now injection Hx' as <-.
    + simpl. now apply Hel.
Qed.

(** X8.  The converter of [zipconv] works element by element on a list
    or a tuple: the result has the same kind (a tagged pair becomes a
    plain tuple) and the same length, the i-th element is the i-th
    function applied to the i-th element, and the elements beyond the
    functions or at a [None] slot are unchanged.  On any other kind of
    result it raises [TypeError]. *)
Theorem zipconv_elementwise (fns : list (option Conv)) :
  (forall vs v',
      elem_converter fns (VList vs) = Ret v' ->
      exists vs', v' = VList vs' /\ zip_apply fns vs = Ret vs') /\
  (forall vs v',
      elem_converter fns (VTuple vs) = Ret v' ->
      exists vs', v' = VTuple vs' /\ zip_apply fns vs = Ret vs') /\
  (forall t r v',
      elem_converter fns (VTagged t r) = Ret v' ->
      exists vs', v' = VTuple vs' /\ zip_apply fns [t; r] = Ret vs') /\
  (forall vs vs',
      zip_apply fns vs = Ret vs' ->
      List.length vs' = List.length vs /\
      forall k x,
        vs !! k = Some x ->
        match fns !! k with
        | Some (Some f) => exists y, f x = Ret y /\ vs' !! k = Some y
        | _ => vs' !! k = Some x
        end) /\
  (forall v,
      match v with
      | VNone | VSkip | VInt _ | VStr _ | VDict _ =>
          elem_converter fns v
          = Raise (TypeError "zipconv only works for lists and tuples")
      | _ => True
      end).
Proof.
  assert (Hshape : forall vs (k : list value -> value) v',
             bind (zip_apply fns vs) (fun vs' => Ret (k vs')) = Ret v' ->
             exists vs', v' = k vs' /\ zip_apply fns vs = Ret vs').
  { intros vs k v' H. destruct (zip_apply fns vs) as [vs' | e |];
      simpl in H; try discriminate.
    injection H as <-. now exists vs'. }
  split; [intros vs v' H; now apply (Hshape vs VList) |].
  split; [intros vs v' H; now apply (Hshape vs VTuple) |].
  split; [intros t r v' H; now apply (Hshape [t; r] VTuple) |].
  split; [intros vs vs'; apply zip_apply_spec |].
  intros v. now destruct v.
Qed.

Lemma zipconv_elementwise_witness :
  List.length [VStr "plus"; VInt 1] = List.length [VStr "plus"; VStr "1"] /\
  forall k x,
    [VStr "plus"; VStr "1"] !! k = Some x ->
    match [None; Some (fun _ : value => Ret (VInt 1))] !! k with
    | Some (Some f) => exists y, f x = Ret y /\ [VStr "plus"; VInt 1] !! k = Some y
    | _ => [VStr "plus"; VInt 1] !! k = Some x
    end.
Proof.
  apply (proj1 (proj2 (proj2 (proj2
           (zipconv_elementwise [None; Some (fun _ => Ret (VInt 1))]))))
           [VStr "plus"; VStr "1"] [VStr "plus"; VInt 1]).
  reflexivity.
Defined.

(** X9.  For an untagged parser [p] and functions that are not all
    [None], [p.zipconv(fns)] runs [p] and then the converter on [p]'s
    result: it returns the converted list or tuple at [p]'s end
    position, and it raises what the converter raises (a [TypeError]
    when [p]'s result is no list or tuple) instead of failing. *)
Theorem zipconv_runs_converter fuel st (p : Parser)
    (fns : list (option Conv)) (s : string) (i : nat)
    (Huntagged : _tag p = VNone)
    (Hsome : forallb (fun fn => match fn with None => true | Some _ => false end)
                     fns = false) :
  run fuel st (zipconv p fns) s i =
  match run fuel st p s i with
  | Ret (Some (r, e)) =>
      match elem_converter fns r with
      | Ret r' => Ret (Some (r', e))
      | Raise x => Raise x
      | OutOfFuel => OutOfFuel
      end
  | o => o
  end.
Proof.
  unfold zipconv. rewrite Hsome, copy_with_conversions.
  rewrite run_more_conversions by assumption.
  destruct (run fuel st p s i) as [[[r e] |] | x |]; try reflexivity.
  simpl. destruct (elem_converter fns r) as [r' | x |] eqn:E; simpl;
    try reflexivity.
  assert (Hkind : is_SKIP r' = false /\ is_None r' = false).
  { unfold elem_converter in E.
    destruct r; try discriminate;
      match type of E with
      | bind ?m _ = _ => destruct m; simpl in E; try discriminate
      end; injection E as <-; now split. }
  destruct Hkind as [-> ->]. reflexivity.
Qed.

Lemma zipconv_runs_converter_witness :
  run 2 ∅ (zipconv (chomp 1) [Some (fun _ => Ret (VInt 1))]) "a" 0 =
  match run 2 ∅ (chomp 1) "a" 0 with
  | Ret (Some (r, e)) =>
      match elem_converter [Some (fun _ => Ret (VInt 1))] r with
      | Ret r' => Ret (Some (r', e))
      | Raise x => Raise x
      | OutOfFuel => OutOfFuel
      end
  | o => o
  end.
Proof.
  apply (zipconv_runs_converter 2 ∅ (chomp 1) [Some (fun _ => Ret (VInt 1))]
           "a" 0); reflexivity.
Defined.

(** ** Sequences and repetitions *)

Lemma contrib_no_None r : Forall (fun x => x <> VNone) (contrib r).
Proof.
  destruct r; simpl; repeat constructor; try discriminate.
  induction vs as [| x vs IH]; simpl; [constructor |].
  destruct x; simpl; try (constructor; [discriminate | exact IH]).
  exact IH.
Qed.

Lemma collect_no_None rs : Forall (fun x => x <> VNone) (collect rs).
Proof.
  unfold collect. induction rs as [| r rs IH]; simpl; [constructor |].
  apply Forall_app. split; [apply contrib_no_None | exact IH].
Qed.

(** X10.  A sequence of [children] (built with the constructor or with
    [+]) run at [i] succeeds exactly when the children succeed one after
    the other, each starting where the one before ended; its result is
    the list collected from the children's results in order and its end
    position is the last child's.  It fails exactly when some child
    fails after the ones before it succeeded. *)
Theorem sequence_semantics st (children : list Parser) (s : string)
    (i : nat) :
  (forall v j,
      yields st (_ParserChain children) s i (Ret (Some (v, j))) <->
      exists rs, seq_run st s children i rs j /\ v = VList (collect rs)) /\
  (yields st (_ParserChain children) s i (Ret None) <->
   seq_fail st s children i).
Proof.
  split; [intros v j; apply chain_Some | apply chain_None].
Qed.

(** X11.  The list returned by a sequence or by a repetition never
    contains [None]: results that are [None] (skipped separators,
    literals) leave no trace, also inside a spliced sub-list. *)
Theorem result_lists_have_no_None st (s : string) (i : nat) (v : value)
    (j : nat) :
  (forall ps,
      yields st (_ParserChain ps) s i (Ret (Some (v, j))) ->
      exists l, v = VList l /\ Forall (fun x => x <> VNone) l) /\
  (forall p k m,
      yields st (star p k m) s i (Ret (Some (v, j))) ->
      exists l, v = VList l /\ Forall (fun x => x <> VNone) l).
Proof.
  split.
  - intros ps H. apply chain_Some in H as (rs & _ & ->).
    exists (collect rs). split; [reflexivity | apply collect_no_None].
  - intros p k m H. apply star_Some in H as (rs & _ & _ & _ & ->).
    exists (collect rs). split; [reflexivity | apply collect_no_None].
Qed.

Lemma result_lists_have_no_None_witness :
  exists l, VList [VStr "a"] = VList l /\ Forall (fun x => x <> VNone) l.
Proof.
  apply (proj1 (result_lists_have_no_None ∅ ",a" 0 (VList [VStr "a"]) 2)
           [ex ","; chomp 1]).
  split; [discriminate | exists 3; reflexivity].
Defined.

(** X12.  Sequences compose: the sequence of [l1] followed by [l2] does
    what the sequence of [l1] does and then, from where that ended, what
    the sequence of [l2] does, and its list is the two lists joined.  For
    two parsers, [a + b] succeeds exactly when [a] succeeds and [b]
    succeeds from where [a] ended, with the contributions of both
    results. *)
Theorem sequence_composes st (s : string) (i : nat) (v : value) (j : nat) :
  (forall l1 l2,
      yields st (_ParserChain (l1 ++ l2)) s i (Ret (Some (v, j))) <->
      exists a k b,
        yields st (_ParserChain l1) s i (Ret (Some (VList a, k))) /\
        yields st (_ParserChain l2) s k (Ret (Some (VList b, j))) /\
        v = VList (a ++ b)) /\
  (forall a b,
      yields st (__add__ a b) s i (Ret (Some (v, j))) <->
      exists ra k rb,
        yields st a s i (Ret (Some (ra, k))) /\
        yields st b s k (Ret (Some (rb, j))) /\
        v = VList (contrib ra ++ contrib rb)).
Proof.
  split.
  - intros l1 l2. rewrite chain_Some. split.
    + intros (rs & Hrs & ->).
      apply seq_run_app in Hrs as (rs1 & rs2 & k & H1 & H2 & ->).
      exists (collect rs1), k, (collect rs2).
      split; [apply chain_Some; now exists rs1 |].
      split; [apply chain_Some; now exists rs2 |].
      now rewrite collect_app.
    + intros (a & k & b & Ha & Hb & ->).
      apply chain_Some in Ha as (rs1 & H1 & [= ->]).
      apply chain_Some in Hb as (rs2 & H2 & [= ->]).
      exists (rs1 ++ rs2). split; [| now rewrite collect_app].
      apply seq_run_app. now exists rs1, rs2, k.
  - intros a b. unfold __add__. rewrite chain_Some. split.
    + intros (rs & Hrs & ->).
      inversion Hrs as [| ? ? ? ra k rs1 ? Ha Hrest]; subst.
      inversion Hrest as [| ? ? ? rb k2 rs2 ? Hb Hnil]; subst.
      inversion Hnil; subst.
      exists ra, k, rb. split; [assumption |]. split; [assumption |].
      rewrite !collect_cons. change (collect []) with (@nil value).
      now rewrite app_nil_r.
    + intros (ra & k & rb & Ha & Hb & ->).
      exists [ra; rb]. split.
      * econstructor; [exact Ha |]. econstructor; [exact Hb | constructor].
      * rewrite !collect_cons. change (collect []) with (@nil value).
        now rewrite app_nil_r.
Qed.

(** X13.  For bounds [k >= 0] and [m >= 0],
    [star(p, at_least=k, at_most=m)] is greedy within its bounds:
    it succeeds exactly when [p] succeeds some number [n >= k] of times
    in a row and then either fails or [n] has reached [m]; the result is
    the list collected from the [n] results.  The number of repetitions
    never exceeds [m], and with [m < k] the repetition never succeeds. *)
Theorem star_greedy st (p : Parser) (k : nat) (m : option nat) (s : string)
    (i : nat) :
  (forall v j,
      yields st (star p k m) s i (Ret (Some (v, j))) <->
      exists rs,
        reps st p s i rs j /\ loop_left st p m s (List.length rs) j /\
        k <= List.length rs /\ v = VList (collect rs)) /\
  (forall v j,
      yields st (star p k m) s i (Ret (Some (v, j))) ->
      exists rs,
        reps st p s i rs j /\ k <= List.length rs /\
        within m (List.length rs) /\ v = VList (collect rs)) /\
  (forall mm v j,
      m = Some mm -> mm < k ->
      ~ yields st (star p k m) s i (Ret (Some (v, j)))).
Proof.
  split; [intros v j; apply star_Some |]. split.
  - intros v j H. apply star_Some in H as (rs & Hrs & Hleft & Hk & ->).
    exists rs. split; [assumption |]. split; [assumption |].
    split; [| reflexivity]. eapply loop_left_within; eassumption.
  - intros mm v j -> Hlt H.
    apply star_Some in H as (rs & _ & Hleft & Hk & _).
    apply loop_left_within in Hleft. simpl in Hleft. lia.
Qed.

Lemma star_greedy_witness :
  exists rs,
    reps ∅ (chomp 1) "ab" 0 rs 2 /\ 1 <= List.length rs /\
    within None (List.length rs) /\ VList [VStr "a"; VStr "b"] = VList (collect rs).
Proof.
  apply (proj1 (proj2 (star_greedy ∅ (chomp 1) 1 None "ab" 0))
           (VList [VStr "a"; VStr "b"]) 2).
  split; [discriminate | exists 4; reflexivity].
Defined.

(** ** Exceptions in an alternation *)

Lemma first_Raise_sound n st ps s i e :
  first_do_parse (run n st) ps s i = Raise e ->
  exists l1 p l2,
    ps = l1 ++ p :: l2 /\ all_fail st l1 s i /\ yields st p s i (Raise e).
Proof.
  induction ps as [| p ps IH]; simpl; intros H; [discriminate |].
  destruct (run n st p s i) as [[r' |] | e' |] eqn:E; simpl in H;
    try discriminate.
  - destruct (IH H) as (l1 & q & l2 & -> & Hl1 & Hq).
    exists (p :: l1), q, l2. split; [reflexivity |]. split; [| assumption].
    constructor; [| assumption]. now apply (yields_intro n).
  - injection H as ->. exists [], p, ps.
    split; [reflexivity |]. split; [constructor |].
    now apply (yields_intro n).
Qed.

Lemma first_Raise_complete st ps s i e :
  (exists l1 p l2,
      ps = l1 ++ p :: l2 /\ all_fail st l1 s i /\ yields st p s i (Raise e)) ->
  exists n, forall m, n <= m -> first_do_parse (run m st) ps s i = Raise e.
Proof.
  intros (l1 & p & l2 & -> & Hl1 & Hp).
  apply first_None_complete in Hl1 as [n Hn].
  apply yields_stable in Hp as [k Hk].
  exists (n + k). intros m Hm.
  rewrite first_do_parse_app, Hn by lia. simpl.
  rewrite Hk by lia. reflexivity.
Qed.

(** X14.  An alternation raises exactly when one of its children raises
    after every child before it failed: an exception is not taken for a
    failure, and no child after the raising one is tried. *)
Theorem first_match_raises st (children : list Parser) (s : string)
    (i : nat) (e : exn) :
  yields st (_ParserFirstMatch children) s i (Raise e) <->
  exists l1 p l2,
    children = l1 ++ p :: l2 /\ all_fail st l1 s i /\
    yields st p s i (Raise e).
Proof.
  split.
  - intros [_ [[| n] H]]; [discriminate |].
    unfold _ParserFirstMatch in H. rewrite run_first in H.
    destruct (first_flatten_upper n st children s i) as [E | E];
      [congruence |].
    rewrite H in E. symmetry in E. now apply first_Raise_sound in E.
  - intros H. apply first_Raise_complete in H as [n Hn].
    apply (yields_intro (S n)); [| discriminate].
    unfold _ParserFirstMatch. rewrite run_first.
    destruct (first_flatten_lower n st children s i) as [E | E].
    + rewrite Hn in E by lia. discriminate.
    + rewrite <- E. apply Hn. lia.
Qed.

(** ** Contextual parsers *)

Lemma run_contextual fuel st c recipe s i :
  run (S fuel) st (contextual c recipe) s i
  = contextual_parse_fn (run fuel st) c recipe s i.
Proof. simpl. unfold run_body. simpl. apply bind_ret_id. Qed.

(** X15.  [contextual(context_parser, recipe_fn)] fails when the
    context parser fails; otherwise it runs the parser that the recipe
    makes of the context result, from where the context parser ended, and
    its outcome is that parser's outcome: the context result itself is
    dropped. *)
Theorem contextual_semantics st (c : Parser) (recipe : value -> Res Parser)
    (s : string) (i : nat) (x : parse_ret) :
  yields st (contextual c recipe) s i (Ret x) <->
  (x = None /\ yields st c s i (Ret None)) \/
  (exists context ni q,
      yields st c s i (Ret (Some (context, ni))) /\
      recipe context = Ret q /\
      yields st q s ni (Ret x)).
Proof.
  split.
  - intros [_ [[| n] H]]; [discriminate |].
    rewrite run_contextual in H. unfold contextual_parse_fn in H.
    destruct (run n st c s i) as [[[context ni] |] | e |] eqn:Ec;
      simpl in H; try discriminate.
    + right. destruct (recipe context) as [q | e |] eqn:Er; simpl in H;
        try discriminate.
      exists context, ni, q.
      split; [apply (yields_intro n); [assumption | discriminate] |].
      split; [exact Er |].
      apply (yields_intro n); [assumption | discriminate].
    + left. injection H as <-. split; [reflexivity |].
      apply (yields_intro n); [assumption | discriminate].
  - intros [[-> Hc] | (context & ni & q & Hc & Hr & Hq)].
    + apply yields_stable in Hc as [k Hk].
      apply (yields_intro (S k)); [| discriminate].
      rewrite run_contextual. unfold contextual_parse_fn.
      now rewrite Hk.
    + apply yields_stable in Hc as [k Hk].
      apply yields_stable in Hq as [k' Hk'].
      apply (yields_intro (S (k + k'))); [| discriminate].
      rewrite run_contextual. unfold contextual_parse_fn.
      rewrite Hk by lia. simpl. rewrite Hr. simpl. apply Hk'. lia.
Qed.

(** ** Recursive grammars *)

Lemma new_refs_spec arity h :
  new_refs arity h
  = (seq (next_ref h) arity, mkRefState (next_ref h + arity) (refs h)).
Proof.
  revert h. induction arity as [| k IH]; intros h; simpl.
  - rewrite Nat.add_0_r. now destruct h.
  - rewrite IH. simpl. do 2 f_equal. lia.
Qed.

Lemma bind_all_other st tbds actuals st' r :
  bind_all st tbds actuals = Ret st' -> r ∉ tbds -> st' !! r = st !! r.
Proof.
  revert st actuals. induction tbds as [| t tbds IH]; intros st actuals H Hr.
  - simpl in H. now injection H as <-.
  - destruct actuals as [| a actuals]; simpl in H; [now injection H as <- |].
    apply IH in H; [| set_solver].
    rewrite H. apply lookup_insert_ne. set_solver.
Qed.

Lemma bind_all_lookup st tbds actuals st' k r a :
  NoDup tbds ->
  bind_all st tbds actuals = Ret st' ->
  tbds !! k = Some r -> actuals !! k = Some a ->
  st' !! r = Some a.
Proof.
  revert st actuals k. induction tbds as [| t tbds IH];
    intros st actuals k Hnd H Hr Ha; [discriminate |].
  destruct actuals as [| a0 actuals]; [discriminate |].
  apply NoDup_cons in Hnd as [Hnotin Hnd]. simpl in H.
  destruct k as [| k]; simpl in Hr, Ha.
  - injection Hr as <-. injection Ha as <-.
    rewrite (bind_all_other _ _ _ _ t H Hnotin). apply lookup_insert_eq.
  - eapply IH; eassumption.
Qed.

Lemma bind_all_returns st tbds actuals :
  exists st', bind_all st tbds actuals = Ret st'.
Proof.
  revert st actuals. induction tbds as [| t tbds IH]; intros st actuals.
  - now exists st.
  - destruct actuals as [| a actuals]; [now exists st |]. simpl. apply IH.
Qed.

(** X16.  [recursive(recipe_fn)] hands the recipe a placeholder that is
    not bound, and running an unbound placeholder raises
    [AttributeError].  When the recipe returns the parser [actual],
    [recursive] returns [actual] and leaves the placeholder bound to it:
    from then on the placeholder runs [actual], which is what makes a
    grammar that mentions the placeholder recursive.  The other
    placeholders are as the recipe left them. *)
Theorem recursive_ties_the_knot
    (recipe : Parser -> RefState -> Res (Parser * RefState))
    (h h2 : RefState) (actual : Parser)
    (Hfresh : refs h !! next_ref h = None)
    (Hrecipe : recipe (RefObj (next_ref h))
                      (mkRefState (S (next_ref h)) (refs h))
               = Ret (actual, h2)) :
  (forall fuel s i,
      run (S fuel) (refs h) (RefObj (next_ref h)) s i
      = Raise (AttributeError "_ref")) /\
  exists h',
    recursive1 recipe h = Ret (actual, h') /\
    next_ref h' = next_ref h2 /\
    refs h' !! next_ref h = Some actual /\
    (forall r, r <> next_ref h -> refs h' !! r = refs h2 !! r) /\
    (forall fuel s i,
        run (S fuel) (refs h') (RefObj (next_ref h)) s i
        = run fuel (refs h') actual s i).
Proof.
  split.
  - intros fuel s i. simpl. unfold run_body. simpl. unfold run_ref.
    now rewrite Hfresh.
  - exists (mkRefState (next_ref h2) (<[next_ref h := actual]> (refs h2))).
    split; [unfold recursive1; simpl; now rewrite Hrecipe |].
    split; [reflexivity |]. split; [apply lookup_insert_eq |].
    split; [intros r Hr; now apply lookup_insert_ne |].
    intros fuel s i. simpl refs.
    rewrite <- (bind_ret_id (run fuel _ actual s i)).
    simpl. unfold run_body. simpl. unfold run_ref.
    now rewrite lookup_insert_eq.
Qed.

Lemma recursive_ties_the_knot_witness :
  (forall fuel s i,
      run (S fuel) ∅ (RefObj 0) s i = Raise (AttributeError "_ref")) /\
  exists h',
    recursive1 parens_recipe (mkRefState 0 ∅)
    = Ret (_ParserChain [ex "("; star (RefObj 0) 0 (Some 1); ex ")"], h') /\
    next_ref h' = 1 /\
    refs h' !! 0
    = Some (_ParserChain [ex "("; star (RefObj 0) 0 (Some 1); ex ")"]) /\
    (forall r, r <> 0 -> refs h' !! r = (∅ : gmap loc Parser) !! r) /\
    (forall fuel s i,
        run (S fuel) (refs h') (RefObj 0) s i
        = run fuel (refs h')
              (_ParserChain [ex "("; star (RefObj 0) 0 (Some 1); ex ")"]) s i).
Proof.
  apply (recursive_ties_the_knot parens_recipe (mkRefState 0 ∅)
           (mkRefState 1 ∅)
           (_ParserChain [ex "("; star (RefObj 0) 0 (Some 1); ex ")"])).
  - reflexivity.
  - reflexivity.
Defined.

Lemma bind_all_beyond st tbds actuals st' k r :
  NoDup tbds ->
  bind_all st tbds actuals = Ret st' ->
  tbds !! k = Some r -> List.length actuals <= k ->
  st' !! r = st !! r.
Proof.
  revert st actuals k. induction tbds as [| t tbds IH];
    intros st actuals k Hnd H Hr Hlen; [discriminate |].
  destruct actuals as [| a actuals]; simpl in H; [now injection H as <- |].
  apply NoDup_cons in Hnd as [Hnotin Hnd].
  destruct k as [| k]; simpl in Hr, Hlen; [lia |].
  rewrite (IH _ _ k Hnd H Hr) by lia.
  apply lookup_insert_ne. intros ->.
  apply Hnotin. eapply list_elem_of_lookup_2. exact Hr.
Qed.

(** X17.  [recursive(recipe_fn, arity)] with several placeholders makes
    [arity] distinct placeholders and, once the recipe has returned its
    definitions, binds the k-th placeholder to the k-th definition, for
    every k for which there is one; it returns the definitions.  The
    new placeholders for which there is no definition and all other
    placeholders are as the recipe left them. *)
Theorem recursive_binds_each (arity : nat)
    (recipe : list Parser -> RefState -> Res (list Parser * RefState))
    (h h2 : RefState) (actuals : list Parser)
    (Hrecipe : recipe (map RefObj (seq (next_ref h) arity))
                      (mkRefState (next_ref h + arity) (refs h))
               = Ret (actuals, h2)) :
  exists h',
    recursiveN arity recipe h = Ret (actuals, h') /\
    next_ref h' = next_ref h2 /\
    (forall k actual,
        k < arity -> actuals !! k = Some actual ->
        refs h' !! (next_ref h + k) = Some actual) /\
    (forall k,
        k < arity -> List.length actuals <= k ->
        refs h' !! (next_ref h + k) = refs h2 !! (next_ref h + k)) /\
    (forall r,
        r < next_ref h \/ next_ref h + arity <= r ->
        refs h' !! r = refs h2 !! r).
Proof.
  destruct (bind_all_returns (refs h2) (seq (next_ref h) arity) actuals)
    as [st' Hst'].
  exists (mkRefState (next_ref h2) st').
  split; [| split; [reflexivity | split; [| split]]].
  - unfold recursiveN. rewrite new_refs_spec, Hrecipe. simpl.
    now rewrite Hst'.
  - intros k actual Hk Ha. simpl.
    eapply bind_all_lookup; [apply NoDup_seq | exact Hst' | | exact Ha].
    apply lookup_seq. now split.
  - intros k Hk Hlen. simpl.
    eapply bind_all_beyond; [apply NoDup_seq | exact Hst' | | exact Hlen].
    apply lookup_seq. now split.
  - intros r Hr. simpl. eapply bind_all_other; [exact Hst' |].
    rewrite elem_of_seq. lia.
Qed.

Lemma recursive_binds_each_witness :
  exists h',
    recursiveN 2 (fun tbds h => Ret ([chomp 1; chomp 2], h)) (mkRefState 0 ∅)
    = Ret ([chomp 1; chomp 2], h') /\
    next_ref h' = 2 /\
    (forall k actual,
        k < 2 -> [chomp 1; chomp 2] !! k = Some actual ->
        refs h' !! (0 + k) = Some actual) /\
    (forall k,
        k < 2 -> List.length [chomp 1; chomp 2] <= k ->
        refs h' !! (0 + k) = (∅ : gmap loc Parser) !! (0 + k)) /\
    (forall r, r < 0 \/ 0 + 2 <= r -> refs h' !! r = (∅ : gmap loc Parser) !! r).
Proof.
  apply (recursive_binds_each 2 (fun tbds h => Ret ([chomp 1; chomp 2], h))
           (mkRefState 0 ∅) (mkRefState 2 ∅) [chomp 1; chomp 2]).
  reflexivity.
Defined.

(** ** Positions *)

Lemma length_append_str a b :
  String.length (a ++ b)%string = String.length a + String.length b.
Proof.
  induction a as [| c a IH]; [reflexivity |].
  change (S (String.length (a ++ b)%string)
          = S (String.length a + String.length b)).
  now rewrite IH.
Qed.

Lemma startswith_inside s z i :
  startswith s z i = true -> i + String.length z <= String.length s.
Proof.
  unfold startswith.
  destruct (Nat.ltb_spec (String.length s) i) as [Hlt | Hge];
    [discriminate |].
  intros Hpre. apply prefix_app in Hpre as [post Hpre].
  apply (f_equal String.length) in Hpre.
  rewrite length_drop_str, length_append_str in Hpre. lia.
Qed.

Section Inside.

Variable st : gmap loc Parser.
Variable s : string.
Variable run_rec : Parser -> string -> nat -> Res parse_ret.

Hypothesis store_inside : forall r q, st !! r = Some q -> stays_inside q.
Hypothesis rec_inside :
  forall q i r j,
    stays_inside q -> i <= String.length s ->
    run_rec q s i = Ret (Some (r, j)) -> i <= j <= String.length s.

Lemma chain_loop_inside ps acc i v j :
  Forall stays_inside ps -> i <= String.length s ->
  chain_loop run_rec ps acc s i = Ret (Some (v, j)) ->
  i <= j <= String.length s.
Proof.
  revert acc i. induction ps as [| p ps IH]; intros acc i Hps Hi H;
    simpl in H.
  - injection H as _ <-. lia.
  - apply Forall_cons in Hps as [Hp Hps].
    destruct (run_rec p s i) as [[[r k] |] | e |] eqn:E; simpl in H;
      try discriminate.
    apply (rec_inside p i r k Hp Hi) in E.
    apply IH in H; [lia | assumption | lia].
Qed.

Lemma first_do_parse_inside ps i v j :
  Forall stays_inside ps -> i <= String.length s ->
  first_do_parse run_rec ps s i = Ret (Some (v, j)) ->
  i <= j <= String.length s.
Proof.
  induction ps as [| p ps IH]; intros Hps Hi H; simpl in H; [discriminate |].
  apply Forall_cons in Hps as [Hp Hps].
  destruct (run_rec p s i) as [[[r k] |] | e |] eqn:E; simpl in H;
    try discriminate.
  - injection H as <- <-. now apply (rec_inside p i r k Hp Hi).
  - now apply IH.
Qed.

Lemma star_loop_inside fuel p at_most rc acc i rc' acc' j :
  stays_inside p -> i <= String.length s ->
  star_loop run_rec fuel p at_most s rc acc i = Ret (rc', acc', j) ->
  i <= j <= String.length s.
Proof.
  intros Hp. revert rc acc i.
  induction fuel as [| fuel IH]; intros rc acc i Hi H; [discriminate |].
  simpl in H.
  destruct (match at_most with None => true | Some m => rc <? m end).
  - destruct (run_rec p s i) as [[[r k] |] | e |] eqn:E; simpl in H;
      try discriminate.
    + apply (rec_inside p i r k Hp Hi) in E.
      apply IH in H; lia.
    + injection H as _ _ <-. lia.
  - injection H as _ _ <-. lia.
Qed.

Lemma call_parse_fn_inside fuel f i v j :
  stays_inside_fn f -> i <= String.length s ->
  call_parse_fn run_rec fuel st f s i = Ret (Some (v, j)) ->
  i <= j <= String.length s.
Proof.
  intros Hf Hi H. destruct Hf as [f Hf | z | patt Hp | n | p k m Hp
                                  | c recipe Hc Hr | ps Hps | ps Hps | r];
    simpl in H.
  - now apply (Hf s i v j).
  - unfold ex_parse_fn in H.
    destruct (startswith s z i) eqn:E; simpl in H; [| discriminate].
    injection H as _ <-. apply startswith_inside in E. lia.
  - unfold regex_parse_fn in H.
    destruct (p_match patt s i) as [m |] eqn:E; [| discriminate].
    apply (Hp s i m Hi) in E.
    destruct (m_groupdict m); [| injection H as _ <-; lia].
    destruct (1 <? List.length (m_groups m));
      [injection H as _ <-; lia |].
    destruct (List.length (m_groups m) =? 1); injection H as _ <-; lia.
  - unfold chomp_parse_fn in H.
    destruct (Nat.leb_spec (i + n) (String.length s)); simpl in H;
      [| discriminate].
    injection H as _ <-. lia.
  - unfold star_parse_fn in H.
    destruct (star_loop run_rec fuel p m s 0 [] i) as [[[rc acc] j'] | e |]
      eqn:E; simpl in H; try discriminate.
    destruct (rc <? k); [discriminate |]. injection H as _ <-.
    eapply star_loop_inside; eassumption.
  - unfold contextual_parse_fn in H.
    destruct (run_rec c s i) as [[[ctx ni] |] | e |] eqn:E; simpl in H;
      try discriminate.
    apply (rec_inside c i ctx ni Hc Hi) in E.
    destruct (recipe ctx) as [q | e |] eqn:Eq; simpl in H; try discriminate.
    apply (rec_inside q ni v j (Hr ctx q Eq)) in H; lia.
  - eapply chain_loop_inside; eassumption.
  - eapply first_do_parse_inside; eassumption.
  - unfold run_ref in H. destruct (st !! r) as [q |] eqn:E; [| discriminate].
    eapply rec_inside; [eapply store_inside | |]; eassumption.
Qed.

Lemma run_body_inside fuel p i v j :
  stays_inside p -> i <= String.length s ->
  run_body run_rec fuel st p s i = Ret (Some (v, j)) ->
  i <= j <= String.length s.
Proof.
  intros Hp Hi H. unfold run_body in H.
  set (i0 := if _trim_ws p then ws_end s i else i) in *.
  assert (Hi0 : i <= i0 <= String.length s).
  { subst i0. destruct (_trim_ws p); [| lia].
    split; [now apply ws_end_ge | apply ws_end_le_length]. }
  destruct (call_parse_fn run_rec fuel st (_parse_fn p) s i0)
    as [[[r k] |] | e |] eqn:E; simpl in H; try discriminate.
  apply call_parse_fn_inside in E; [| exact Hp | lia].
  destruct (run_conversions (_conversions p) r) as [[r' |] | e |];
    simpl in H; try discriminate.
  injection H as _ <-. destruct (_trim_ws p); [| lia].
  pose proof (ws_end_ge s k) as H1. pose proof (ws_end_le_length s k) as H2.
  lia.
Qed.

End Inside.

(** X18.  Positions stay inside the input and never move backward: for
    a parser made of the library's atoms and combinators (with [chomp]
    given a number of characters [n >= 0], with caller's parse functions
    and regular expressions that keep to the input, and placeholders
    bound to such parsers), a run started at [i <= len(s)] that succeeds
    ends at some [j] with [i <= j <= len(s)]. *)
Theorem positions_stay_inside (st : gmap loc Parser) (p : Parser)
    (s : string) (i : nat) (fuel : nat) (r : value) (j : nat)
    (Hstore : forall a q, st !! a = Some q -> stays_inside q)
    (Hp : stays_inside p)
    (Hi : i <= String.length s)
    (Hrun : run fuel st p s i = Ret (Some (r, j))) :
  i <= j <= String.length s.
Proof.
  revert p i r j Hp Hi Hrun.
  induction fuel as [| fuel IH]; intros p i r j Hp Hi Hrun; [discriminate |].
  simpl in Hrun.
  eapply (run_body_inside st s (run fuel st) Hstore IH); eassumption.
Qed.

Lemma positions_stay_inside_witness :
  1 <= 4 <= String.length "x(ab)".
Proof.
  apply (positions_stay_inside ∅
           (__add__ (ex "(") (star (chomp 1) 0 (Some 2))) "x(ab)" 1 6
           (VList [VStr "a"; VStr "b"]) 4).
  - intros a q Ha. rewrite lookup_empty in Ha. discriminate.
  - unfold stays_inside. simpl. constructor.
    repeat constructor.
  - simpl. lia.
  - reflexivity.
Defined.

(** ** Repetition of a parser that consumes input *)

Lemma star_loop_advancing st p s :
  (forall j, exists o, yields st p s j o) ->
  (forall j r j',
      yields st p s j (Ret (Some (r, j'))) -> j < j' <= String.length s) ->
  forall d rc acc i,
    String.length s - i <= d ->
    exists f, star_loop (run f st) f p None s rc acc i <> OutOfFuel.
Proof.
  intros Hterm Hadv d. induction d as [| d IH]; intros rc acc i Hd.
  - destruct (Hterm i) as [o Ho].
    destruct (yields_stable _ _ _ _ _ Ho) as [n Hn].
    destruct o as [[[r j'] |] | e |]; [| | | now destruct Ho].
    + apply Hadv in Ho. lia.
    + exists (S n). cbn [star_loop].
      rewrite (run_mono n (S n) st p s i _ (Hn n (le_n n)))
        by (discriminate || lia).
      discriminate.
    + exists (S n). cbn [star_loop].
      rewrite (run_mono n (S n) st p s i _ (Hn n (le_n n)))
        by (discriminate || lia).
      discriminate.
  - destruct (Hterm i) as [o Ho].
    destruct (yields_stable _ _ _ _ _ Ho) as [n Hn].
    destruct o as [[[r j'] |] | e |]; [| | | now destruct Ho].
    + apply Hadv in Ho.
      destruct (IH (S rc) (_add_result acc r) j') as [f Hf]; [lia |].
      exists (S (n + f)). cbn [star_loop].
      rewrite (run_mono n (S (n + f)) st p s i _ (Hn n (le_n n)))
        by (discriminate || lia).
      cbn [bind].
      destruct (star_loop_le (run f st) (run (S (n + f)) st)
                  (fun q t j => run_le f (S (n + f)) st q t j ltac:(lia))
                  f (n + f) p None s (S rc)
                  (_add_result acc r) j' ltac:(lia)) as [E | E];
        congruence.
    + exists (S n). cbn [star_loop].
      rewrite (run_mono n (S n) st p s i _ (Hn n (le_n n)))
        by (discriminate || lia).
      discriminate.
    + exists (S n). cbn [star_loop].
      rewrite (run_mono n (S n) st p s i _ (Hn n (le_n n)))
        by (discriminate || lia).
      discriminate.
Qed.

(** X19.  When every run of [p] on [s] returns and every successful one
    ends inside [s] after where it started, the unbounded [star(p)]
    returns at every position of [s]: the loop can only go on as long as
    input is consumed. *)
Theorem star_returns_when_p_advances st (p : Parser) (k : nat) (s : string)
    (Hterm : forall j, exists o, yields st p s j o)
    (Hadv : forall j r j',
        yields st p s j (Ret (Some (r, j'))) ->
        j < j' <= String.length s) :
  forall i, exists o, yields st (star p k None) s i o.
Proof.
  intros i.
  destruct (star_loop_advancing st p s Hterm Hadv (String.length s - i)
              0 [] i (le_n _)) as [f Hf].
  exists (run (S f) st (star p k None) s i).
  apply (yields_intro (S f)); [reflexivity |].
  rewrite run_star. unfold star_parse_fn.
  destruct (star_loop (run f st) f p None s 0 [] i)
    as [[[rc acc] j'] | e |]; simpl; [| discriminate | congruence].
  destruct (rc <? k); discriminate.
Qed.

Lemma star_returns_when_p_advances_witness :
  exists o, yields ∅ (star (chomp 1) 0 None) "ab" 0 o.
Proof.
  apply (fun Hterm Hadv =>
           star_returns_when_p_advances ∅ (chomp 1) 0 "ab" Hterm Hadv 0).
  - intros j. exists (run 1 ∅ (chomp 1) "ab" j).
    split; [| now exists 1].
    simpl. unfold run_body. simpl. unfold chomp_parse_fn.
    destruct (negb _); discriminate.
  - intros j r j' [_ [[| n] H]]; [discriminate |].
    simpl in H. unfold run_body in H. simpl in H. unfold chomp_parse_fn in H.
    destruct (Nat.leb_spec (j + 1) (String.length "ab")) as [Hle | Hgt];
      simpl in H; [| discriminate].
    injection H as _ <-. simpl in Hle. simpl. lia.
Defined.

(** ** The shape of a separated list *)

(** X20.  [seplist(p, sep)] succeeds exactly when [p] succeeds and is
    followed by some number of successful runs of separator-then-item,
    the last of them ending at a position where separator-then-item
    fails: a separator that is not followed by an item is not consumed.
    The result collects the first item and the later ones in order. *)
Theorem seplist_shape st (p : Parser) (sep : Parser + string) (s : string)
    (i : nat) (v : value) (j : nat) :
  yields st (seplist p sep) s i (Ret (Some (v, j))) <->
  exists r0 i1 rs,
    yields st p s i (Ret (Some (r0, i1))) /\
    reps st (__add__ (skip (sep_parser sep)) p) s i1 rs j /\
    yields st (__add__ (skip (sep_parser sep)) p) s j (Ret None) /\
    v = VList (contrib r0 ++ collect rs).
Proof.
  unfold seplist. unfold __add__ at 1. rewrite chain_Some. split.
  - intros (rs0 & Hrs & ->).
    inversion Hrs as [| ? ? ? r0 i1 rs1 ? Hp Hrest]; subst.
    inversion Hrest as [| ? ? ? r1 i2 rs2 ? Hstar Hnil]; subst.
    inversion Hnil; subst.
    apply star_Some in Hstar as (rs & Hreps & Hleft & _ & ->).
    exists r0, i1, rs. split; [assumption |]. split; [assumption |].
    split; [destruct Hleft as [[_ H] | H]; [exact H | discriminate] |].
    rewrite !collect_cons, contrib_collect.
    change (collect []) with (@nil value). now rewrite app_nil_r.
  - intros (r0 & i1 & rs & Hp & Hreps & Hfail & ->).
    exists [r0; VList (collect rs)]. split.
    + econstructor; [exact Hp |]. econstructor; [| constructor].
      apply star_Some. exists rs. split; [assumption |].
      split; [left; split; [exact I | assumption] |].
      split; [lia | reflexivity].
    + rewrite !collect_cons, contrib_collect.
      change (collect []) with (@nil value). now rewrite app_nil_r.
Qed.
